(** * CubemapUtils (tools/cmgen): a shallow embedding and its properties

    The development follows [tools/cmgen/src/CubemapUtils.cpp].

    - [size_t] values are binary naturals ([N]); where the source computes
      with them ([2 * dim], [width + 1], ...) the 64-bit wrap-around is
      written out ([wrap]).
    - Memory is one flat array of bytes.  A pointer is an index into it
      (pointer arithmetic does not wrap), an access outside of it is
      undefined behaviour and makes the operation return [None].
    - A [float] that is only loaded, compared and stored ([clamp],
      [generateUVGrid]) is its four bytes (IEEE-754 binary32, little endian),
      decoded to [spec_float] for comparisons and arithmetic.
    - The [double] computations of [equirectangularToCubemap] and
      [solidAngle] are idealised as exact arithmetic over the reals (module
      [Ideal]); their rounding is outside of the model.  The
      single-precision quotients [1.0f / n] that feed them are not
      idealised: the operand is converted to binary32 and the quotient is
      rounded to binary32, as the source has it. *)

From Stdlib Require Import ZArith NArith Lia Lra Reals.
From Stdlib Require Import SpecFloat.
From Stdlib Require Import Strings.Byte.
From Stdlib Require Strings.String.
From stdpp Require Import base option list.
Import String.StringSyntax.

Local Open Scope N_scope.

(** ** Machine integers *)

Definition size_t_bits : N := 64.

(** The value a [size_t] expression keeps after the arithmetic wrapped. *)
Definition wrap (n : N) : N := n mod 2 ^ size_t_bits.

(** ** Loops *)

(** [for (size_t i = 0; i < n; ++i) body(i)] over a state that may fail. *)
Definition for_range {S : Type} (n : N) (body : N → S → option S) (s : S)
  : option S :=
  N.peano_rect (λ _, option S) (Some s) (λ i acc, acc ≫= body i) n.

(** ** Memory *)

Abbreviation Mem := (list byte).

Definition msize (m : Mem) : N := N.of_nat (length m).

(** Reading [n] bytes at address [p]. *)
Definition load (m : Mem) (p n : N) : option (list byte) :=
  if p + n <=? msize m
  then Some (take (N.to_nat n) (drop (N.to_nat p) m))
  else None.

(** Writing the bytes [bs] at address [p]. *)
Definition store (m : Mem) (p : N) (bs : list byte) : option Mem :=
  if p + N.of_nat (length bs) <=? msize m
  then Some (list_inserts (N.to_nat p) bs m)
  else None.

(** [memcpy(dst, src, n)]; overlapping ranges are undefined behaviour. *)
Definition memcpy (m : Mem) (dst src n : N) : option Mem :=
  if (dst + n <=? src) || (src + n <=? dst) || (n =? 0)
  then bs ← load m src n; store m dst bs
  else None.

(** ** binary32 *)

Definition prec32 : Z := 24.
Definition emax32 : Z := 128.

(** Little-endian value of a run of bytes. *)
Definition bits_of_bytes (bs : list byte) : N :=
  foldr (λ b acc, Byte.to_N b + 256 * acc) 0 bs.

Definition byte_of_N (n : N) : byte :=
  default x00 (Byte.of_N (n mod 256)).

Definition bytes_of_bits32 (w : N) : list byte :=
  [byte_of_N w; byte_of_N (w / 256); byte_of_N (w / 65536);
   byte_of_N (w / 16777216)].

(** The IEEE-754 binary32 value of a 32-bit pattern. *)
Definition f32_of_bits (w : N) : spec_float :=
  let s := N.testbit w 31 in
  let e := N.land (N.shiftr w 23) 255 in
  let m := N.land w (2 ^ 23 - 1) in
  if e =? 0 then
    match m with
    | N0 => S754_zero s
    | Npos p => S754_finite s p (-149)
    end
  else if e =? 255 then
    (if m =? 0 then S754_infinity s else S754_nan)
  else
    match m + 2 ^ 23 with
    | N0 => S754_nan
    | Npos p => S754_finite s p (Z.of_N e - 150)
    end.

(** The 32-bit pattern of a binary32 value in canonical form (the quiet NaN
    for a NaN). *)
Definition bits_of_f32 (x : spec_float) : N :=
  let sign (s : bool) := if s then 2 ^ 31 else 0 in
  match x with
  | S754_zero s => sign s
  | S754_infinity s => sign s + 255 * 2 ^ 23
  | S754_nan => 255 * 2 ^ 23 + 2 ^ 22
  | S754_finite s m e =>
      if Npos m <? 2 ^ 23 then sign s + Npos m
      else sign s + Z.to_N (e + 150) * 2 ^ 23 + (Npos m - 2 ^ 23)
  end.

Definition f32_of_bytes (bs : list byte) : spec_float :=
  f32_of_bits (bits_of_bytes bs).

Definition bytes_of_f32 (x : spec_float) : list byte :=
  bytes_of_bits32 (bits_of_f32 x).

(** A [float] literal with an integer value. *)
Definition f32_of_Z (z : Z) : spec_float :=
  binary_normalize prec32 emax32 z 0 false.

(** [(float)n] for a [size_t]: the conversion rounds to the nearest
    [float]. *)
Definition f32_of_size_t (n : N) : spec_float := f32_of_Z (Z.of_N n).

(** [a / b] on floats. *)
Definition f32_div (a b : spec_float) : spec_float :=
  SFdiv prec32 emax32 a b.

(** [a < b] on floats: false when either side is a NaN. *)
Definition f32_lt (a b : spec_float) : bool := SFltb a b.

(** [std::min(a, b)] is [(b < a) ? b : a]. *)
Definition std_min (a b : spec_float) : spec_float :=
  if f32_lt b a then b else a.

(** [std::min] on the stored representation: the result is one of the two
    objects, bit for bit. *)
Definition std_min_bytes (a b : list byte) : list byte :=
  if f32_lt (f32_of_bytes b) (f32_of_bytes a) then b else a.

(** ** Loops over disjoint slots

    A family of slots of [sz] bytes, the slot of index [i] at address
    [addr i].  An operation _updates_ the slots of a set [D] by [F] when,
    on a memory that holds them, it succeeds, replaces the content [bs] of
    every slot [i] of [D] by [F i bs] and leaves every range outside of
    these slots as it was. *)

Section SlotFamily.

Context {I : Type}.
Variable addr : I → N.
Variable sz : N.
Variable F : I → list byte → list byte.

Definition separated (D : I → Prop) : Prop :=
  ∀ i j, D i → D j → i ≠ j → addr i + sz ≤ addr j ∨ addr j + sz ≤ addr i.

Definition allocated (D : I → Prop) (m : Mem) : Prop :=
  ∀ i, D i → addr i + sz ≤ msize m.

Definition away (D : I → Prop) (q n : N) : Prop :=
  ∀ i, D i → q + n ≤ addr i ∨ addr i + sz ≤ q.

Definition updates (op : Mem → option Mem) (D : I → Prop) : Prop :=
  ∀ m, allocated D m →
    ∃ m', op m = Some m' ∧ length m' = length m ∧
      (∀ i, D i → load m' (addr i) sz = F i <$> load m (addr i) sz) ∧
      (∀ q n, away D q n → load m' q n = load m q n).

End SlotFamily.

(** ** Image *)

(** Modelled from the spec: the class [image::Image] (its header is not part
    of the sources): "width W, height H, bytes-per-row stride, texel size in
    bytes" and the address of the first texel. *)
Record Image : Type := mkImage {
  mData : N;
  mWidth : N;
  mHeight : N;
  mBpr : N;
  mBpp : N
}.

Definition getWidth (i : Image) : N := mWidth i.
Definition getHeight (i : Image) : N := mHeight i.
Definition getBytesPerRow (i : Image) : N := mBpr i.
Definition getBytesPerPixel (i : Image) : N := mBpp i.

(** Modelled from the spec: [Image::getPixelRef], "pixel-reference access by
    (x,y) returning a handle to the texel bytes": the address of texel
    [(x, y)] under the row stride. *)
Definition getPixelRef (i : Image) (x y : N) : N :=
  mData i + y * mBpr i + x * mBpp i.

(** Modelled from the spec: [Image::subset], "a non-owning view into a
    rectangular region of a larger buffer": the view starts at texel
    [(x, y)] of the parent and keeps the parent's stride. *)
Definition subset (parent : Image) (x y w h : N) : Image :=
  {| mData := getPixelRef parent x y;
     mWidth := w;
     mHeight := h;
     mBpr := getBytesPerRow parent;
     mBpp := getBytesPerPixel parent |}.

(** ** CubemapUtils::clamp *)

Definition sizeof_float : N := 4.

(** [256.0f] *)
Definition f256 : spec_float := f32_of_Z 256.
Definition f256_bytes : list byte := bytes_of_f32 f256.

(** [c = std::min(c, 256.0f)] for the [float] at address [p]. *)
Definition clampChannel (p : N) (m : Mem) : option Mem :=
  c ← load m p sizeof_float;
  store m p (std_min_bytes c f256_bytes).

(** The three assignments to [c.x], [c.y] and [c.z] for the [float3] at
    address [c]. *)
Definition clampTexel (c : N) (m : Mem) : option Mem :=
  m ← clampChannel c m;
  m ← clampChannel (c + sizeof_float) m;
  clampChannel (c + 2 * sizeof_float) m.

Definition clamp (src : Image) (m : Mem) : option Mem :=
  let width := getWidth src in
  let height := getHeight src in
  for_range height (λ y,
    for_range width (λ x,
      clampTexel (getPixelRef src x y))) m.

(** The value of channel [k] (0, 1, 2 for R, G, B) of texel [(x, y)]. *)
Definition channel (i : Image) (m : Mem) (x y k : N) : option spec_float :=
  f32_of_bytes <$> load m (getPixelRef i x y + k * sizeof_float) sizeof_float.

(** An image of [float3] texels: the texels of a row do not overlap and a
    row ends before the next one starts; and its texels lie in the
    memory. *)
Definition texels_apart (i : Image) : Prop :=
  3 * sizeof_float ≤ getBytesPerPixel i ∧
  getWidth i * getBytesPerPixel i ≤ getBytesPerRow i.

Definition texels_allocated (i : Image) (m : Mem) : Prop :=
  ∀ x y, x < getWidth i → y < getHeight i →
    getPixelRef i x y + 3 * sizeof_float ≤ msize m.

Definition image_ok (i : Image) (m : Mem) : Prop :=
  texels_apart i ∧ texels_allocated i m.

(** The slots [clamp] works on: channel [k] of texel [(x, y)], at index
    [(x, y, k)]; and what it does to the bytes of one. *)
Definition channel_addr (src : Image) (i : N * N * N) : N :=
  getPixelRef src i.1.1 i.1.2 + i.2 * sizeof_float.

Definition channel_of_image (src : Image) (i : N * N * N) : Prop :=
  i.1.1 < getWidth src ∧ i.1.2 < getHeight src ∧ i.2 < 3.

Definition clamped (_ : N * N * N) (bs : list byte) : list byte :=
  std_min_bytes bs f256_bytes.

(** ** CubemapUtils::copyImage *)

(** [assert(dst.getWidth() >= src.getWidth() && dst.getHeight() >=
    src.getHeight())]: a failing assertion aborts ([None]). *)
Definition copyImage (dst src : Image) (m : Mem) : option Mem :=
  if (getWidth src <=? getWidth dst) && (getHeight src <=? getHeight dst)
  then
    for_range (getHeight src) (λ y m,
      memcpy m (getPixelRef dst 0 y) (getPixelRef src 0 y)
        (getBytesPerRow src)) m
  else None.

(** ** Cubemap *)

Inductive Face : Type := NX | PX | NY | PY | NZ | PZ.

Inductive Geometry : Type := HORIZONTAL_CROSS | VERTICAL_CROSS.

Global Instance Face_eq_dec : EqDecision Face.
Proof. solve_decision. Defined.

Global Instance Geometry_eq_dec : EqDecision Geometry.
Proof. solve_decision. Defined.

(** Modelled from the spec: the class [Cubemap] (its header is not part of
    the sources): "dimension N, six faces indexed by an enumeration {NX, PX,
    NY, PY, NZ, PZ} each mapping to one PixelBuffer, and a declared geometry
    tag". *)
Record Cubemap : Type := mkCubemap {
  mDimensions : N;
  mGeometry : Geometry;
  mFaces : Face → Image
}.

Definition getDimensions (cm : Cubemap) : N := mDimensions cm.
Definition getGeometry (cm : Cubemap) : Geometry := mGeometry cm.
Definition getImageForFace (cm : Cubemap) (f : Face) : Image := mFaces cm f.

Definition setGeometry (cm : Cubemap) (g : Geometry) : Cubemap :=
  {| mDimensions := mDimensions cm; mGeometry := g; mFaces := mFaces cm |}.

(** Modelled from the spec: [Cubemap::setImageForFace], "replacing a face
    validates dimension equality (fails otherwise)". *)
Definition setImageForFace (cm : Cubemap) (face : Face) (image : Image)
  : option Cubemap :=
  if (getWidth image =? getDimensions cm)
     && (getHeight image =? getDimensions cm)
  then Some {| mDimensions := mDimensions cm;
               mGeometry := mGeometry cm;
               mFaces := λ f, if decide (f = face) then image
                              else mFaces cm f |}
  else None.

(** Modelled from the spec: the constructor [Cubemap(dim)]: no face is
    attached yet, the geometry tag starts as the horizontal cross. *)
Definition newCubemap (dim : N) : Cubemap :=
  {| mDimensions := dim;
     mGeometry := HORIZONTAL_CROSS;
     mFaces := λ _, mkImage 0 0 0 0 0 |}.

(** ** CubemapUtils::setFaceFromCross, setAllFacesFromCross *)

Definition setFaceFromCross (cm : Cubemap) (face : Face) (image : Image)
  : option Cubemap :=
  let dim := getDimensions cm in
  let '(x, y) :=
    match face with
    | NX => (0, dim)
    | PX => (wrap (2 * dim), dim)
    | NY => (dim, wrap (2 * dim))
    | PY => (dim, 0)
    | NZ =>
        if getWidth image <? getHeight image
        then (dim, wrap (3 * dim))
        else (wrap (3 * dim), dim)
    | PZ => (dim, dim)
    end in
  let subImage := subset image x y dim dim in
  setImageForFace cm face subImage.

Definition setAllFacesFromCross (cm : Cubemap) (image : Image)
  : option Cubemap :=
  let cm := setGeometry cm (if getWidth image <? getHeight image
                            then VERTICAL_CROSS
                            else HORIZONTAL_CROSS) in
  cm ← setFaceFromCross cm NX image;
  cm ← setFaceFromCross cm PX image;
  cm ← setFaceFromCross cm NY image;
  cm ← setFaceFromCross cm PY image;
  cm ← setFaceFromCross cm NZ image;
  setFaceFromCross cm PZ image.

(** The cell of the cross, in units of the face size, a face is read from:
    the table of the specification. *)
Definition crossCell (vertical : bool) (face : Face) : N * N :=
  match face with
  | NX => (0, 1)
  | PX => (2, 1)
  | NY => (1, 2)
  | PY => (1, 0)
  | PZ => (1, 1)
  | NZ => if vertical then (1, 3) else (3, 1)
  end.

(** ** CubemapUtils::createCubemapImage, create *)

(** [sizeof(Cubemap::Texel)]: three floats. *)
Definition sizeof_Texel : N := 12.

(** [new uint8_t[size]] followed by [memset(.., 0, size)]: a fresh zeroed
    block at the end of the memory. *)
Definition alloc_zeroed (size : N) (m : Mem) : N * Mem :=
  (msize m, m ++ replicate (N.to_nat size) x00).

Definition createCubemapImage (dim : N) (horizontal : bool) (m : Mem)
  : Image * Mem :=
  let width := wrap (4 * dim) in
  let height := wrap (3 * dim) in
  let '(width, height) :=
    if horizontal then (width, height) else (height, width) in
  let bpr := wrap (wrap (width + 1) * sizeof_Texel) in
  let bpr := N.land (wrap (bpr + 31)) (2 ^ size_t_bits - 32) in
  let bufSize := wrap (bpr * wrap (height + 1)) in
  let '(data, m) := alloc_zeroed bufSize m in
  (mkImage data width height bpr sizeof_Texel, m).

Definition create (dim : N) (horizontal : bool) (m : Mem)
  : option (Cubemap * Image * Mem) :=
  let cm := newCubemap dim in
  let '(temp, m) := createCubemapImage dim horizontal m in
  cm ← setAllFacesFromCross cm temp;
  Some (cm, temp, m).

(** ** CubemapUtils::process, generateUVGrid *)

(** [Cubemap::Texel] is [float3]. *)
Definition Texel : Type := spec_float * spec_float * spec_float.

Definition f32_mul (a b : spec_float) : spec_float :=
  SFmul prec32 emax32 a b.

(** [float3 * float] *)
Definition Texel_scale (t : Texel) (k : spec_float) : Texel :=
  let '(r, g, b) := t in (f32_mul r k, f32_mul g k, f32_mul b k).

Definition Texel_bytes (t : Texel) : list byte :=
  let '(r, g, b) := t in bytes_of_f32 r ++ bytes_of_f32 g ++ bytes_of_f32 b.

(** Modelled from the spec: [Cubemap::writeAt], which stores a texel in the
    slot [data] points to. *)
Definition writeAt (data : N) (t : Texel) (m : Mem) : option Mem :=
  store m data (Texel_bytes t).

(** The texel read back from the slot at [data]. *)
Definition readAt (data : N) (m : Mem) : option Texel :=
  r ← load m data sizeof_float;
  g ← load m (data + sizeof_float) sizeof_float;
  b ← load m (data + 2 * sizeof_float) sizeof_float;
  Some (f32_of_bytes r, f32_of_bytes g, f32_of_bytes b).

(** [(Cubemap::Face)faceIndex] *)
Definition face_of_index (i : N) : Face :=
  match i with
  | 0 => NX | 1 => PX | 2 => NY | 3 => PY | 4 => NZ | _ => PZ
  end.

Definition index_of_face (f : Face) : N :=
  match f with
  | NX => 0 | PX => 1 | NY => 2 | PY => 3 | NZ => 4 | PZ => 5
  end.

(** Modelled from the spec: [CubemapUtils::process] (a template of the
    header, which is not part of the sources): it "iterates all (face, row)
    pairs; for each row, the callback receives mutable access to a dense run
    of N texel slots".  The rows are independent, so the jobs are run one
    after the other.  The callback gets the row [y], the face, the address
    of the row's first texel and the dimension. *)
Definition process (cm : Cubemap)
    (proc : N → Face → N → N → Mem → option Mem) (m : Mem) : option Mem :=
  let dim := getDimensions cm in
  for_range 6 (λ faceIndex,
    let f := face_of_index faceIndex in
    let image := getImageForFace cm f in
    for_range dim (λ y, proc y f (getPixelRef image 0 y) dim)) m.

Definition f32_0 : spec_float := f32_of_Z 0.
Definition f32_1 : spec_float := f32_of_Z 1.


Definition colors (f : Face) : Texel :=
  match f with
  | NX => (f32_1, f32_0, f32_0)
  | PX => (f32_1, f32_1, f32_1)
  | NY => (f32_0, f32_1, f32_0)
  | PY => (f32_0, f32_0, f32_1)
  | NZ => (f32_1, f32_0, f32_1)
  | PZ => (f32_1, f32_1, f32_0)
  end.

Definition uvGridHDRIntensity : spec_float := f32_of_Z 5.

(** [bool(((x / gridSize) ^ (y / gridSize)) & 1)] *)
Definition gridParity (gridSize x y : N) : bool :=
  negb (N.land (N.lxor (x / gridSize) (y / gridSize)) 1 =? 0).

(** The callback of [generateUVGrid] for row [y] of face [f], with the
    captured [gridSize].  The loop over [x] carries the slot pointer
    ([++data]); a division by zero is undefined behaviour. *)
Definition uvRow (gridSize : N) (y : N) (f : Face) (data dim : N) (m : Mem)
  : option Mem :=
  snd <$> for_range dim (λ x '(data, m),
    if gridSize =? 0 then None else
    let grid := gridParity gridSize x y in
    let t := if grid then Texel_scale (colors f) uvGridHDRIntensity
             else (f32_0, f32_0, f32_0) in
    m ← writeAt data t m;
    Some (data + sizeof_Texel, m)) (data, m).

Definition generateUVGrid (cml : Cubemap) (gridFrequency : N) (m : Mem)
  : option Mem :=
  if gridFrequency =? 0 then None else
  let gridSize := getDimensions cml / gridFrequency in
  process cml (uvRow gridSize) m.

(** The checkerboard of the specification: cells of [dimension /
    gridFrequency] texels; where the cell indices of [x] and [y] have an odd
    exclusive or, the colour of the face times 5.0, elsewhere black. *)
Definition black : Texel := (f32_0, f32_0, f32_0).
Definition red : Texel := (f32_1, f32_0, f32_0).
Definition white : Texel := (f32_1, f32_1, f32_1).
Definition green : Texel := (f32_0, f32_1, f32_0).
Definition blue : Texel := (f32_0, f32_0, f32_1).
Definition magenta : Texel := (f32_1, f32_0, f32_1).
Definition yellow : Texel := (f32_1, f32_1, f32_0).

Definition faceColor (f : Face) : Texel :=
  match f with
  | NX => red
  | PX => white
  | NY => green
  | PY => blue
  | NZ => magenta
  | PZ => yellow
  end.

Definition checkerboard (dimension gridFrequency : N) (f : Face) (x y : N)
  : Texel :=
  let cellSize := dimension / gridFrequency in
  if N.odd (N.lxor (x / cellSize) (y / cellSize))
  then Texel_scale (faceColor f) (f32_of_Z 5)
  else black.

(** The texel the callback of [generateUVGrid] writes at [(x, y)] of face
    [f]. *)
Definition uvTexel (gridSize : N) (f : Face) (x y : N) : Texel :=
  if gridParity gridSize x y
  then Texel_scale (colors f) uvGridHDRIntensity
  else (f32_0, f32_0, f32_0).

(** What [generateUVGrid] puts in the slot of a texel. *)
Definition uvBytes (gridSize : N) (i : Face * N * N) (_ : list byte)
  : list byte :=
  Texel_bytes (uvTexel gridSize i.1.1 i.1.2 i.2).

(** The texel slots of a cubemap, indexed by face, column and row. *)
Definition texel_addr (cm : Cubemap) (i : Face * N * N) : N :=
  getPixelRef (getImageForFace cm i.1.1) i.1.2 i.2.

Definition texel_of_cubemap (cm : Cubemap) (i : Face * N * N) : Prop :=
  i.1.2 < getDimensions cm ∧ i.2 < getDimensions cm.

(** A cubemap of [float3] texels in a memory: the texels of its six faces
    lie in the memory and no two of them overlap. *)
Definition cubemap_ok (cm : Cubemap) (m : Mem) : Prop :=
  (∀ f, getBytesPerPixel (getImageForFace cm f) = sizeof_Texel) ∧
  separated (texel_addr cm) sizeof_Texel (texel_of_cubemap cm) ∧
  allocated (texel_addr cm) sizeof_Texel (texel_of_cubemap cm) m.

(** ** More on copyImage: what a copy needs *)

(** The rows of a copy, a source stride long each: row [y] of the source and
    the run of the same length at the start of row [y] of the destination. *)
Definition copy_src_row (src : Image) (y : N) : N := getPixelRef src 0 y.
Definition copy_dst_row (dst : Image) (y : N) : N := getPixelRef dst 0 y.

(** The destination is large enough, its stride holds a source stride, the
    rows lie in the memory, and no row of the source overlaps a row of the
    destination. *)
Definition copy_ok (dst src : Image) (m : Mem) : Prop :=
  getWidth src ≤ getWidth dst ∧
  getHeight src ≤ getHeight dst ∧
  getBytesPerRow src ≤ getBytesPerRow dst ∧
  (∀ y, y < getHeight src →
     copy_src_row src y + getBytesPerRow src ≤ msize m ∧
     copy_dst_row dst y + getBytesPerRow src ≤ msize m) ∧
  (∀ y y', y < getHeight src → y' < getHeight src →
     copy_dst_row dst y + getBytesPerRow src ≤ copy_src_row src y' ∨
     copy_src_row src y' + getBytesPerRow src ≤ copy_dst_row dst y).

(** ** More on createCubemapImage: the cross it allocates *)

(** The size in texels and the stride in bytes of the cross of a cubemap of
    dimension [dim]: 4 by 3 faces when horizontal, 3 by 4 when vertical;
    the stride holds one texel more than the width and is rounded up to a
    multiple of 32. *)
Definition crossWidth (horizontal : bool) (dim : N) : N :=
  (if horizontal then 4 else 3) * dim.

Definition crossHeight (horizontal : bool) (dim : N) : N :=
  (if horizontal then 3 else 4) * dim.

Definition crossStride (width : N) : N :=
  32 * (((width + 1) * sizeof_Texel + 31) / 32).

Definition crossImage (horizontal : bool) (dim data : N) : Image :=
  mkImage data (crossWidth horizontal dim) (crossHeight horizontal dim)
    (crossStride (crossWidth horizontal dim)) sizeof_Texel.


(** ** CubemapUtils::getFaceName *)

Local Open Scope string_scope.

Definition getFaceName (face : Face) : String.string :=
  match face with
  | NX => "nx"
  | PX => "px"
  | NY => "ny"
  | PY => "py"
  | NZ => "nz"
  | PZ => "pz"
  end.

Local Close Scope string_scope.

(** ** Scenarios *)

(** The scenario of the specification: a row of three texels whose red
    channels are 300, 1 and 1000. *)
Definition scenario_image : Image := mkImage 0 3 1 64 12.

Definition scenario_texels : list Texel :=
  [ (f32_of_Z 300, f32_of_Z 2, f32_of_Z 7);
    (f32_of_Z 1, f32_of_Z 256, f32_of_Z 100);
    (f32_of_Z 1000, f32_of_Z 0, f32_of_Z 255) ].

Definition scenario_mem : Mem :=
  concat (Texel_bytes <$> scenario_texels) ++ replicate 28 x00.

(** Two cross images as [createCubemapImage] allocates them, for the
    dimensions 1 and 2, one after the other in an empty memory; the texel
    [(4, 0)] of the larger one is painted white. *)
Definition copy_src : Image := (createCubemapImage 1 true []).1.

Definition copy_dst : Image :=
  (createCubemapImage 2 true (createCubemapImage 1 true []).2).1.

Definition copy_mem : Mem :=
  default []
    (writeAt (getPixelRef copy_dst 4 0) (f32_1, f32_1, f32_1)
       (createCubemapImage 2 true (createCubemapImage 1 true []).2).2).

(** The scenario of the specification: the cubemap [create] builds for
    dimension 16 over a fresh horizontal cross. *)
Definition uv_cubemap : Cubemap :=
  default (newCubemap 16) ((λ r, r.1.1) <$> create 16 true []).

Definition uv_mem : Mem := default [] ((λ r, r.2) <$> create 16 true []).

(** ** The [double] computations, over the reals *)

Module Ideal.
Local Open Scope R_scope.

Definition double : Type := R.
Definition double2 : Type := (R * R)%type.
Definition double3 : Type := (R * R * R)%type.

(** [(double)n] for a [size_t] *)
Definition of_size_t (n : N) : double := IZR (Z.of_N n).

(** [size_t(d)] for a non-negative [d]: the integer part.  (Above the
    range of [size_t] the conversion is undefined in the source.) *)
Definition to_size_t (d : double) : N := Z.to_N (Int_part d).

(** [std::min(a, b)] is [(b < a) ? b : a], [std::max(a, b)] is
    [(a < b) ? b : a]. *)
Definition std_min (a b : double) : double :=
  if Rlt_dec b a then b else a.
Definition std_max (a b : double) : double :=
  if Rlt_dec a b then b else a.

(** [std::atan2(y, x)] of the C library. *)
Definition atan2 (y x : double) : double :=
  if Rlt_dec 0 x then atan (y / x)
  else if Rlt_dec x 0 then
    (if Rle_dec 0 y then atan (y / x) + PI else atan (y / x) - PI)
  else if Rlt_dec 0 y then PI / 2
  else if Rlt_dec y 0 then - (PI / 2)
  else 0.

Definition M_1_PI : double := / PI.

(** The value of a [float], which a conversion to [double] keeps.  (The
    model gives 0 to the infinities and to NaN; they do not occur where
    the value is used below.) *)
Definition of_float (x : spec_float) : double :=
  match x with
  | S754_finite s m e =>
      (if s then - IZR (Zpos m) else IZR (Zpos m)) * powerRZ 2 e
  | _ => 0
  end.

(** [1.0f / n] for a [size_t] [n] (lines 82 and 260): [n] is converted to
    [float] and the quotient is rounded to [float]. *)
Definition float_reciprocal (n : N) : double :=
  of_float (f32_div f32_1 (f32_of_size_t n)).

(** *** CubemapUtils::equirectangularToCubemap: the sample count *)

Section EquirectangularToCubemap.

(** [dst.getDirectionFor(f, x, y)], of the class [Cubemap] whose code is not
    part of the sources: any function. *)
Variable getDirectionFor : Face → double → double → double3.

(** The size of the source image. *)
Variables width height : N.

(** The lambda [toRectilinear]; [width - 1] and [height - 1] are computed
    on [size_t]. *)
Definition toRectilinear (s : double3) : double2 :=
  let '(sx, sy, sz) := s in
  let xf := atan2 sx sz * M_1_PI in
  let yf := asin sy * (2 * M_1_PI) in
  let xf := (xf + 1) * 0.5 * of_size_t (wrap (width + (2 ^ 64 - 1))%N) in
  let yf := (1 - yf) * 0.5 * of_size_t (wrap (height + (2 ^ 64 - 1))%N) in
  (xf, yf).

(** Lines 74 to 80: the sample count from the projections of the four
    corners. *)
Definition samplesOfBox (pos0 pos1 pos2 pos3 : double2) : N :=
  let minx := std_min pos0.1 (std_min pos1.1 (std_min pos2.1 pos3.1)) in
  let maxx := std_max pos0.1 (std_max pos1.1 (std_max pos2.1 pos3.1)) in
  let miny := std_min pos0.2 (std_min pos1.2 (std_min pos2.2 pos3.2)) in
  let maxy := std_max pos0.2 (std_max pos1.2 (std_max pos2.2 pos3.2)) in
  let dx := std_max 1 (maxx - minx) in
  let dy := std_max 1 (maxy - miny) in
  to_size_t (dx * dy).

(** [numSamples] for the destination texel [(x, y)] of face [f]. *)
Definition numSamples (f : Face) (x y : N) : N :=
  let pos0 := toRectilinear (getDirectionFor f (of_size_t x + 0) (of_size_t y + 0)) in
  let pos1 := toRectilinear (getDirectionFor f (of_size_t x + 1) (of_size_t y + 0)) in
  let pos2 := toRectilinear (getDirectionFor f (of_size_t x + 0) (of_size_t y + 1)) in
  let pos3 := toRectilinear (getDirectionFor f (of_size_t x + 1) (of_size_t y + 1)) in
  samplesOfBox pos0 pos1 pos2 pos3.

(** [iNumSamples = 1.0f / numSamples], a [float] quotient *)
Definition iNumSamples (f : Face) (x y : N) : double :=
  float_reciprocal (numSamples f x y).

(** The bounding box of the specification: the extents of the projections
    of the four corners [(f, x + {0,1}, y + {0,1})]. *)
Definition corners (f : Face) (x y : N) : list double2 :=
  [ toRectilinear (getDirectionFor f (of_size_t x) (of_size_t y));
    toRectilinear (getDirectionFor f (of_size_t x + 1) (of_size_t y));
    toRectilinear (getDirectionFor f (of_size_t x) (of_size_t y + 1));
    toRectilinear (getDirectionFor f (of_size_t x + 1) (of_size_t y + 1)) ].

End EquirectangularToCubemap.

(** Modelled from the spec: [Cubemap::getDirectionFor] (the header is not
    part of the sources), "the canonical cubemap parameterization: each face
    defines which of the three Cartesian axes is the constant forward axis
    and which are varying axes, mapped from a [0,N) x [0,N) continuous
    coordinate to [-1,1] normalized, then composed into a 3-vector and
    normalized".  The signs of the varying axes are the usual ones. *)
Definition Cubemap_getDirectionFor (dim : N) (face : Face) (x y : double)
  : double3 :=
  let scale := 2 / of_size_t dim in
  let cx := x * scale - 1 in
  let cy := 1 - y * scale in
  let l := sqrt (cx * cx + cy * cy + 1) in
  let '(dx, dy, dz) :=
    match face with
    | PX => (1, cy, - cx)
    | NX => (-1, cy, cx)
    | PY => (cx, 1, - cy)
    | NY => (cx, -1, cy)
    | PZ => (cx, cy, 1)
    | NZ => (- cx, cy, -1)
    end in
  (dx * (1 / l), dy * (1 / l), dz * (1 / l)).

(** The extent of a non-empty list of coordinates. *)
Definition extent (cs : list double) : double :=
  match cs with
  | [] => 0
  | c :: cs => foldr Rmax c cs - foldr Rmin c cs
  end.

Definition boundingBoxWidth (ps : list double2) : double := extent (fst <$> ps).
Definition boundingBoxHeight (ps : list double2) : double := extent (snd <$> ps).

(** The ceiling of a real number. *)
Definition ceil (r : double) : Z := (- Int_part (- r))%Z.

(** The sample count as the specification gives it. *)
Definition specSampleCount (ps : list double2) : Z :=
  Z.max 1 (ceil (boundingBoxWidth ps) * ceil (boundingBoxHeight ps)).

(** The sample count as the source computes it. *)
Definition truncatedSampleCount (ps : list double2) : Z :=
  Int_part (Rmax 1 (boundingBoxWidth ps) * Rmax 1 (boundingBoxHeight ps)).

(** *** CubemapUtils::solidAngle *)

Definition sphereQuadrantArea (x y : double) : double :=
  atan2 (x * y) (sqrt (x * x + y * y + 1)).

(** [iDim] is the [float] quotient [1.0f / dim] of line 260, widened to
    [double]; the operations that follow are on [double]. *)
Definition solidAngle (dim u v : N) : double :=
  let iDim := float_reciprocal dim in
  let s := ((of_size_t u + 0.5) * 2 * iDim) - 1 in
  let t := ((of_size_t v + 0.5) * 2 * iDim) - 1 in
  let x0 := s - iDim in
  let y0 := t - iDim in
  let x1 := s + iDim in
  let y1 := t + iDim in
  sphereQuadrantArea x0 y0 -
  sphereQuadrantArea x0 y1 -
  sphereQuadrantArea x1 y0 +
  sphereQuadrantArea x1 y1.




(** The indices of a loop [for (i = 0; i < n; ++i)]. *)
Definition indices (n : N) : list N := N.of_nat <$> seq 0 (N.to_nat n).

Definition Rsum (l : list R) : R := foldr Rplus 0 l.

(** The sum of the solid angles of the texels of one face, and of the six
    faces. *)
Definition faceSolidAngle (dim : N) : R :=
  Rsum ((λ u, Rsum ((λ v, solidAngle dim u v) <$> indices dim)) <$> indices dim).

Definition totalSolidAngle (dim : N) : R :=
  Rsum ((λ _ : Face, faceSolidAngle dim) <$> [NX; PX; NY; PY; NZ; PZ]).

(** The coordinate of the grid line [i] of a face of [dim] texels, as
    [solidAngle] places it: the corner [x0] of the texels of index [i] and
    the corner [x1] of the texels of index [i - 1]. *)
Definition gridLine (dim : N) (i : nat) : R :=
  2 * INR i * float_reciprocal dim - 1.

(** The last statement of [solidAngle]: the solid angle of the rectangle
    between the corners [(x0, y0)] and [(x1, y1)]. *)
Definition patch (x0 x1 y0 y1 : R) : R :=
  sphereQuadrantArea x0 y0 - sphereQuadrantArea x0 y1
  - sphereQuadrantArea x1 y0 + sphereQuadrantArea x1 y1.


(** *** CubemapUtils::downsampleCubemapLevelBoxFilter: where the source is
    filtered *)

(** [scale = src.getDimensions() / dst.getDimensions()] (line 105); a
    division by zero is undefined. *)
Definition downsampleScale (srcDim dstDim : N) : option N :=
  if (dstDim =? 0)%N then None else Some (srcDim / dstDim)%N.

(** The position [(x*scale+0.5, y*scale+0.5)] at which the source face is
    filtered for the destination texel [(x, y)] (line 110): the products
    are computed on [size_t], the sums on [double]. *)
Definition downsamplePosition (scale x y : N) : double2 :=
  (of_size_t (wrap (x * scale)) + 0.5, of_size_t (wrap (y * scale)) + 0.5).

End Ideal.

(** * Properties *)

(** ** Loops *)

Lemma for_range_0 {S : Type} (body : N → S → option S) (s : S) :
  for_range 0 body s = Some s.
Proof. reflexivity. Qed.

Lemma for_range_succ {S : Type} (n : N) (body : N → S → option S) (s : S) :
  for_range (N.succ n) body s = for_range n body s ≫= body n.
Proof. unfold for_range. by rewrite N.peano_rect_succ. Qed.

(** The invariant rule: an invariant that holds on entry and is kept by
    every iteration holds at the exit, and the loop does not fail. *)
Lemma for_range_inv {S : Type} (P : N → S → Prop) (n : N)
    (body : N → S → option S) (s : S) :
  P 0 s →
  (∀ i t, i < n → P i t → ∃ t', body i t = Some t' ∧ P (N.succ i) t') →
  ∃ t, for_range n body s = Some t ∧ P n t.
Proof.
  intros H0 Hstep.
  assert (Hk : ∀ k, k ≤ n → ∃ t, for_range k body s = Some t ∧ P k t).
  { intros k. induction k as [|k IH] using N.peano_ind; intros Hle.
    - exists s. by rewrite for_range_0.
    - destruct IH as (t & Ht & HP); [lia|].
      destruct (Hstep k t) as (t' & Hb & HP'); [lia|done|].
      exists t'. by rewrite for_range_succ, Ht. }
  apply Hk. lia.
Qed.

(** ** Memory *)

Lemma load_Some (m : Mem) (p n : N) :
  p + n ≤ msize m → ∃ bs, load m p n = Some bs.
Proof.
  intros H. unfold load. destruct (N.leb_spec (p + n) (msize m)); [eauto|lia].
Qed.

Lemma load_inv (m : Mem) (p n : N) (bs : list byte) :
  load m p n = Some bs →
  p + n ≤ msize m ∧ length bs = N.to_nat n ∧
  ∀ j, (j < N.to_nat n)%nat → bs !! j = m !! (N.to_nat p + j)%nat.
Proof.
  unfold load, msize. destruct (N.leb_spec (p + n) (N.of_nat (length m))) as [H|H];
    [|done].
  intros [= <-]. split; [done|]. split.
  - rewrite length_take, length_drop. lia.
  - intros j Hj. by rewrite lookup_take_lt, lookup_drop.
Qed.

Lemma load_ext (m m' : Mem) (p n : N) :
  length m' = length m →
  (∀ i, (N.to_nat p ≤ i < N.to_nat p + N.to_nat n)%nat → m' !! i = m !! i) →
  load m' p n = load m p n.
Proof.
  intros Hlen Hbytes. unfold load, msize. rewrite Hlen.
  destruct (N.leb_spec (p + n) (N.of_nat (length m))) as [H|H]; [|done].
  f_equal. apply list_eq. intros j.
  destruct (decide (j < N.to_nat n)%nat) as [Hj|Hj].
  - rewrite !lookup_take_lt, !lookup_drop by done. apply Hbytes. lia.
  - by rewrite !lookup_take_ge by lia.
Qed.

Lemma store_Some (m : Mem) (p : N) (bs : list byte) :
  p + N.of_nat (length bs) ≤ msize m → ∃ m', store m p bs = Some m'.
Proof.
  intros H. unfold store.
  destruct (N.leb_spec (p + N.of_nat (length bs)) (msize m)); [eauto|lia].
Qed.

Lemma store_inv (m m' : Mem) (p : N) (bs : list byte) :
  store m p bs = Some m' →
  length m' = length m ∧
  (∀ j, (j < length bs)%nat → m' !! (N.to_nat p + j)%nat = bs !! j) ∧
  (∀ i, (i < N.to_nat p ∨ N.to_nat p + length bs ≤ i)%nat → m' !! i = m !! i).
Proof.
  unfold store, msize.
  destruct (N.leb_spec (p + N.of_nat (length bs)) (N.of_nat (length m)))
    as [H|H]; [|done].
  intros [= <-]. split; [apply length_inserts|]. split.
  - intros j Hj. rewrite list_lookup_inserts by lia. f_equal. lia.
  - intros i [Hi|Hi].
    + by apply list_lookup_inserts_lt.
    + by apply list_lookup_inserts_ge.
Qed.

Lemma msize_store (m m' : Mem) (p : N) (bs : list byte) :
  store m p bs = Some m' → msize m' = msize m.
Proof. intros H. unfold msize. by rewrite (proj1 (store_inv _ _ _ _ H)). Qed.

(** Reading back what was written. *)
Lemma load_store_eq (m m' : Mem) (p : N) (bs : list byte) :
  store m p bs = Some m' → load m' p (N.of_nat (length bs)) = Some bs.
Proof.
  intros H. destruct (store_inv _ _ _ _ H) as (Hlen & Hin & _).
  unfold load, msize. rewrite Hlen. unfold store, msize in H.
  destruct (N.leb_spec (p + N.of_nat (length bs)) (N.of_nat (length m)))
    as [Hle|Hle]; [|done].
  f_equal. apply list_eq. intros j. rewrite Nat2N.id.
  destruct (decide (j < length bs)%nat) as [Hj|Hj].
  - rewrite lookup_take_lt, lookup_drop by done. by apply Hin.
  - rewrite lookup_take_ge by lia. symmetry. apply lookup_ge_None. lia.
Qed.

(** A write leaves every disjoint range as it was. *)
Lemma load_store_disjoint (m m' : Mem) (p q n : N) (bs : list byte) :
  store m p bs = Some m' →
  q + n ≤ p ∨ p + N.of_nat (length bs) ≤ q →
  load m' q n = load m q n.
Proof.
  intros H Hd. destruct (store_inv _ _ _ _ H) as (Hlen & _ & Hout).
  apply load_ext; [done|]. intros i Hi. apply Hout. lia.
Qed.

(** Writing back what is there changes nothing. *)
Lemma store_load_id (m : Mem) (p n : N) (bs : list byte) :
  load m p n = Some bs → store m p bs = Some m.
Proof.
  intros H. destruct (load_inv _ _ _ _ H) as (Hle & Hlen & Hbs).
  unfold store. rewrite Hlen, N2Nat.id.
  destruct (N.leb_spec (p + n) (msize m)) as [_|?]; [|lia].
  f_equal. apply list_eq. intros i.
  destruct (decide (N.to_nat p ≤ i < N.to_nat p + length bs)%nat) as [Hi|Hi].
  - rewrite list_lookup_inserts by (unfold msize in Hle; lia).
    rewrite Hbs by lia. f_equal. lia.
  - destruct (decide (i < N.to_nat p)%nat).
    + by apply list_lookup_inserts_lt.
    + apply list_lookup_inserts_ge. lia.
Qed.

(** ** Loops over disjoint slots *)

Section Slots.

Context {I : Type}.
Variable addr : I → N.
Variable sz : N.
Variable F : I → list byte → list byte.

Lemma separated_mono (D D' : I → Prop) :
  (∀ i, D' i → D i) → separated addr sz D → separated addr sz D'.
Proof. intros Hsub H i j Hi Hj. apply H; by apply Hsub. Qed.

Lemma updates_ext (op op' : Mem → option Mem) (D D' : I → Prop) :
  (∀ m, op' m = op m) → (∀ i, D' i ↔ D i) → updates addr sz F op D → updates addr sz F op' D'.
Proof.
  intros Hop HD H m Ha.
  destruct (H m) as (m' & Hm' & Hlen & Hin & Hout).
  { intros i Hi. apply Ha, HD, Hi. }
  exists m'. rewrite Hop. repeat split; [done..| |].
  - intros i Hi. apply Hin, HD, Hi.
  - intros q n Hq. apply Hout. intros i Hi. apply Hq, HD, Hi.
Qed.

(** A loop whose iterations update pairwise disjoint sets of slots updates
    their union. *)
Lemma updates_for_range (n : N) (ops : N → Mem → option Mem)
    (Ds : N → I → Prop) (D : I → Prop) :
  separated addr sz D →
  (∀ j i, j < n → Ds j i → D i) →
  (∀ i, D i → ∃ j, j < n ∧ Ds j i) →
  (∀ j j' i, j < n → j' < n → Ds j i → Ds j' i → j = j') →
  (∀ j, j < n → updates addr sz F (ops j) (Ds j)) →
  updates addr sz F (for_range n ops) D.
Proof.
  intros Hsep Hsub Hcov Huniq Hops m Halloc.
  destruct (for_range_inv (λ k s,
      length s = length m ∧
      (∀ i j, j < k → Ds j i →
         load s (addr i) sz = F i <$> load m (addr i) sz) ∧
      (∀ i j, k ≤ j → j < n → Ds j i →
         load s (addr i) sz = load m (addr i) sz) ∧
      (∀ q n', away addr sz D q n' → load s q n' = load m q n'))
    n ops m) as (m' & Hm' & Hlen & Hdone & _ & Hframe).
  - repeat split; [|done..]. intros i j Hj. lia.
  - intros k t Hk (Hlen & Hdone & Htodo & Hframe).
    destruct (Hops k Hk t) as (t' & Ht' & Hlen' & Hin & Hout).
    { intros i Hi. unfold msize. rewrite Hlen. apply Halloc.
      by apply (Hsub k). }
    assert (Hother : ∀ i j, j < n → j ≠ k → Ds j i →
              load t' (addr i) sz = load t (addr i) sz).
    { intros i j Hj Hjk Hi. apply Hout. intros i' Hi'.
      apply Hsep; [by apply (Hsub j)|by apply (Hsub k)|].
      intros ->. apply Hjk. by apply (Huniq j k i'). }
    exists t'. split; [done|]. split; [congruence|]. repeat split.
    + intros i j Hj Hi. destruct (decide (j = k)) as [->|Hjk].
      * rewrite Hin by done. f_equal. apply (Htodo i k); [lia|done..].
      * rewrite (Hother i j) by (done || lia). apply (Hdone i j); [lia|done].
    + intros i j Hj Hjn Hi. rewrite (Hother i j) by (done || lia).
      apply (Htodo i j); [lia|done..].
    + intros q n' Hq. rewrite Hout; [by apply Hframe|].
      intros i Hi. apply Hq. by apply (Hsub k).
  - exists m'. repeat split; [done..| |done].
    intros i Hi. destruct (Hcov i Hi) as (j & Hj & HDs).
    by apply (Hdone i j).
Qed.

End Slots.

(** ** clamp *)

Lemma std_min_bytes_length (a b : list byte) :
  length a = length b → length (std_min_bytes a b) = length b.
Proof. unfold std_min_bytes. by case (f32_lt _ _). Qed.

Lemma std_min_bytes_value (a b : list byte) :
  f32_of_bytes (std_min_bytes a b) = std_min (f32_of_bytes a) (f32_of_bytes b).
Proof. unfold std_min_bytes, std_min. by case (f32_lt _ _). Qed.

Lemma clampChannel_spec (p : N) (m : Mem) :
  p + sizeof_float ≤ msize m →
  ∃ m' bs, load m p sizeof_float = Some bs ∧
    clampChannel p m = Some m' ∧ length m' = length m ∧
    load m' p sizeof_float = Some (std_min_bytes bs f256_bytes) ∧
    ∀ q n, q + n ≤ p ∨ p + sizeof_float ≤ q → load m' q n = load m q n.
Proof.
  intros Hp. destruct (load_Some m p sizeof_float Hp) as (bs & Hbs).
  destruct (load_inv _ _ _ _ Hbs) as (_ & Hlen & _).
  assert (Hl : length (std_min_bytes bs f256_bytes) = 4%nat).
  { by rewrite std_min_bytes_length. }
  destruct (store_Some m p (std_min_bytes bs f256_bytes)) as (m' & Hm').
  { rewrite Hl. exact Hp. }
  exists m', bs. unfold clampChannel. rewrite Hbs. simpl.
  split; [done|]. split; [done|].
  split; [by destruct (store_inv _ _ _ _ Hm')|]. split.
  - apply load_store_eq in Hm'. by rewrite Hl in Hm'.
  - intros q n Hq. eapply load_store_disjoint; [done|]. by rewrite Hl.
Qed.

Lemma clampTexel_for_range (c : N) (m : Mem) :
  clampTexel c m = for_range 3 (λ k, clampChannel (c + k * sizeof_float)) m.
Proof.
  change 3 with (N.succ (N.succ (N.succ 0))).
  rewrite !for_range_succ, for_range_0. unfold clampTexel. simpl.
  change (N.succ 0 * sizeof_float) with sizeof_float.
  change (N.succ (N.succ 0) * sizeof_float) with (2 * sizeof_float).
  change (0 * sizeof_float) with 0. rewrite N.add_0_r.
  by destruct (clampChannel c m).
Qed.

Section Clamp.

Variable src : Image.
Hypothesis Hapart : texels_apart src.

Lemma channels_separated :
  separated (channel_addr src) sizeof_float (channel_of_image src).
Proof.
  destruct Hapart as [Hbpp Hbpr].
  intros [[x y] k] [[x' y'] k'] (Hx & Hy & Hk) (Hx' & Hy' & Hk') Hne.
  unfold channel_addr, getPixelRef, sizeof_float, getBytesPerPixel,
    getBytesPerRow, getWidth, getHeight in *. simpl in *.
  destruct (N.lt_trichotomy y y') as [Hlt|[->|Hlt]].
  - left. assert (N.succ y * mBpr src ≤ y' * mBpr src)
      by (apply N.mul_le_mono_r; lia).
    assert (N.succ x * mBpp src ≤ mWidth src * mBpp src)
      by (apply N.mul_le_mono_r; lia).
    lia.
  - destruct (N.lt_trichotomy x x') as [Hlt|[->|Hlt]].
    + left. assert (N.succ x * mBpp src ≤ x' * mBpp src)
        by (apply N.mul_le_mono_r; lia).
      lia.
    + assert (k ≠ k') by congruence. lia.
    + right. assert (N.succ x' * mBpp src ≤ x * mBpp src)
        by (apply N.mul_le_mono_r; lia).
      lia.
  - right. assert (N.succ y' * mBpr src ≤ y * mBpr src)
      by (apply N.mul_le_mono_r; lia).
    assert (N.succ x' * mBpp src ≤ mWidth src * mBpp src)
      by (apply N.mul_le_mono_r; lia).
    lia.
Qed.

Lemma clampChannel_updates (x y k : N) :
  updates (channel_addr src) sizeof_float clamped
    (clampChannel (getPixelRef src x y + k * sizeof_float)) (eq (x, y, k)).
Proof.
  intros m Ha.
  destruct (clampChannel_spec (getPixelRef src x y + k * sizeof_float) m)
    as (m' & bs & Hbs & Hm' & Hlen & Hin & Hout).
  { by apply (Ha (x, y, k)). }
  exists m'. repeat split; [done..| |].
  - intros i <-. unfold channel_addr. simpl. by rewrite Hin, Hbs.
  - intros q n Hq. apply Hout. by apply (Hq (x, y, k)).
Qed.

Lemma clampTexel_updates (x y : N) :
  x < getWidth src → y < getHeight src →
  updates (channel_addr src) sizeof_float clamped
    (clampTexel (getPixelRef src x y))
    (λ i, channel_of_image src i ∧ i.1 = (x, y)).
Proof.
  intros Hx Hy.
  apply updates_ext with
    (op := for_range 3 (λ k, clampChannel (getPixelRef src x y + k * sizeof_float)))
    (D := λ i, channel_of_image src i ∧ i.1 = (x, y));
    [apply clampTexel_for_range|done|].
  apply updates_for_range with (Ds := λ k, eq (x, y, k)).
  - eapply separated_mono; [|apply channels_separated]. by intros i [? _].
  - intros k i Hk <-. by repeat split.
  - intros [[x' y'] k] [(_ & _ & Hk) [= -> ->]]. by exists k.
  - by intros j j' i _ _ <- [= ->].
  - intros k _. apply clampChannel_updates.
Qed.

Lemma clamp_row_updates (y : N) :
  y < getHeight src →
  updates (channel_addr src) sizeof_float clamped
    (for_range (getWidth src) (λ x, clampTexel (getPixelRef src x y)))
    (λ i, channel_of_image src i ∧ i.1.2 = y).
Proof.
  intros Hy.
  apply updates_for_range
    with (Ds := λ x i, channel_of_image src i ∧ i.1 = (x, y)).
  - eapply separated_mono; [|apply channels_separated]. by intros i [? _].
  - intros x [[x' y'] k] Hx [Hi [= -> ->]]. by split.
  - intros [[x' y'] k] [Hi Hy']. simpl in Hy'. subst y'. exists x'.
    split; [apply Hi|done].
  - intros x x' [[x'' y''] k] _ _ [_ [= -> _]] [_ [= -> _]]. done.
  - intros x Hx. by apply clampTexel_updates.
Qed.

Lemma clamp_updates :
  updates (channel_addr src) sizeof_float clamped (clamp src) (channel_of_image src).
Proof.
  unfold clamp.
  apply updates_for_range with (Ds := λ y i, channel_of_image src i ∧ i.1.2 = y).
  - apply channels_separated.
  - by intros y i _ [Hi _].
  - intros i Hi. exists i.1.2. split; [apply Hi|done].
  - by intros y y' i _ _ [_ <-] [_ <-].
  - intros y Hy. by apply clamp_row_updates.
Qed.

End Clamp.

(** *** Comparisons of floats *)

Lemma SFcompare_antisym (a b : spec_float) (c : comparison) :
  SFcompare a b = Some c → SFcompare b a = Some (CompOpp c).
Proof.
  destruct a as [sa|sa| |sa ma ea], b as [sb|sb| |sb mb eb]; simpl;
    try discriminate;
    try (intros [= <-]; by repeat match goal with s : bool |- _ => destruct s end).
  intros [= <-]. f_equal.
  assert (Hm : Pos.compare_cont Eq mb ma = CompOpp (Pos.compare_cont Eq ma mb))
    by (symmetry; apply (Pos.compare_cont_antisym ma mb Eq)).
  rewrite (Z.compare_antisym ea eb), Hm.
  destruct sa, sb; simpl; try done;
    destruct (ea ?= eb)%Z; simpl; try done;
    by destruct (Pos.compare_cont Eq ma mb).
Qed.

Lemma SFcompare_refl (a : spec_float) :
  SFcompare a a = Some Eq ∨ SFcompare a a = None.
Proof.
  destruct a as [s|s| |s m e]; simpl; auto.
  - left. by destruct s.
  - left. rewrite Z.compare_refl, Pos.compare_cont_refl. by destruct s.
Qed.

Lemma f32_lt_irrefl (a : spec_float) : f32_lt a a = false.
Proof. unfold f32_lt, SFltb. by destruct (SFcompare_refl a) as [-> | ->]. Qed.

Lemma f32_lt_asym (a b : spec_float) : f32_lt a b = true → f32_lt b a = false.
Proof.
  unfold f32_lt, SFltb. destruct (SFcompare a b) as [c|] eqn:H; [|done].
  rewrite (SFcompare_antisym _ _ _ H). by destruct c.
Qed.

Lemma f32_le_not_lt (a b : spec_float) : SFleb a b = true → f32_lt b a = false.
Proof.
  unfold f32_lt, SFltb, SFleb. destruct (SFcompare a b) as [c|] eqn:H; [|done].
  rewrite (SFcompare_antisym _ _ _ H). by destruct c.
Qed.

(** [std::min] with a bound never gives more than its first argument, and
    at or below the bound gives it back. *)
Lemma std_min_not_above (v b : spec_float) : f32_lt v (std_min v b) = false.
Proof.
  unfold std_min. destruct (f32_lt b v) eqn:H.
  - by apply f32_lt_asym.
  - apply f32_lt_irrefl.
Qed.

Lemma std_min_below (v b : spec_float) : SFleb v b = true → std_min v b = v.
Proof. intros H. unfold std_min. by rewrite (f32_le_not_lt _ _ H). Qed.

Lemma std_min_bytes_idem (bs b : list byte) :
  std_min_bytes (std_min_bytes bs b) b = std_min_bytes bs b.
Proof.
  unfold std_min_bytes. destruct (f32_lt (f32_of_bytes b) (f32_of_bytes bs)) eqn:H.
  - by rewrite f32_lt_irrefl.
  - by rewrite H.
Qed.

Lemma f256_bytes_value : f32_of_bytes f256_bytes = f256.
Proof. reflexivity. Qed.

(** *** The effect of [clamp] on the channels *)

Lemma channels_allocated (src : Image) (m : Mem) :
  texels_allocated src m →
  allocated (channel_addr src) sizeof_float (channel_of_image src) m.
Proof.
  intros Ha [[x y] k] (Hx & Hy & Hk). simpl in *.
  specialize (Ha x y Hx Hy). unfold channel_addr, sizeof_float in *. simpl. lia.
Qed.

Lemma clamp_spec (src : Image) (m : Mem) :
  image_ok src m →
  ∃ m', clamp src m = Some m' ∧ length m' = length m ∧
    ∀ x y k, x < getWidth src → y < getHeight src → k < 3 →
      ∃ bs, load m (getPixelRef src x y + k * sizeof_float) sizeof_float
              = Some bs ∧
            load m' (getPixelRef src x y + k * sizeof_float) sizeof_float
              = Some (std_min_bytes bs f256_bytes).
Proof.
  intros [Hapart Halloc].
  destruct (clamp_updates src Hapart m (channels_allocated _ _ Halloc))
    as (m' & Hm' & Hlen & Hin & _).
  exists m'. repeat split; [done..|]. intros x y k Hx Hy Hk.
  destruct (load_Some m (getPixelRef src x y + k * sizeof_float) sizeof_float)
    as (bs & Hbs).
  { by apply (channels_allocated _ _ Halloc (x, y, k)). }
  exists bs. split; [done|].
  specialize (Hin (x, y, k)). unfold channel_addr in Hin. simpl in Hin.
  rewrite Hin, Hbs by done. done.
Qed.

(** A memory whose channels are all fixed by the cap is left as it is. *)
Lemma clamp_fixed (src : Image) (m : Mem) :
  (∀ x y k, x < getWidth src → y < getHeight src → k < 3 →
     ∃ bs, load m (getPixelRef src x y + k * sizeof_float) sizeof_float
             = Some bs ∧ std_min_bytes bs f256_bytes = bs) →
  clamp src m = Some m.
Proof.
  intros Hfix.
  assert (Hch : ∀ x y k, x < getWidth src → y < getHeight src → k < 3 →
            clampChannel (getPixelRef src x y + k * sizeof_float) m = Some m).
  { intros x y k Hx Hy Hk. destruct (Hfix x y k Hx Hy Hk) as (bs & Hbs & Hmin).
    unfold clampChannel. rewrite Hbs. simpl. rewrite Hmin.
    by apply store_load_id with sizeof_float. }
  assert (Htx : ∀ x y, x < getWidth src → y < getHeight src →
            clampTexel (getPixelRef src x y) m = Some m).
  { intros x y Hx Hy. unfold clampTexel.
    pose proof (Hch x y 0 Hx Hy) as H0. rewrite N.add_0_r in H0.
    rewrite H0 by lia. simpl.
    pose proof (Hch x y 1 Hx Hy) as H1. rewrite N.mul_1_l in H1.
    rewrite H1 by lia. simpl. apply (Hch x y 2 Hx Hy). lia. }
  unfold clamp.
  destruct (for_range_inv (λ _ s, s = m) (getHeight src)
    (λ y, for_range (getWidth src) (λ x, clampTexel (getPixelRef src x y))) m)
    as (t & Ht & ->); [done| |done].
  intros y t Hy ->.
  destruct (for_range_inv (λ _ s, s = m) (getWidth src)
    (λ x, clampTexel (getPixelRef src x y)) m) as (t & Ht & ->); [done| |eauto].
  intros x t Hx ->. exists m. split; [by apply Htx|done].
Qed.

(** C6: after [clamp], every channel of every texel is [std::min] of its
    previous value and 256.0; a value at or below 256 is unchanged. *)
Theorem clamp_caps_channels (src : Image) (m : Mem) :
  image_ok src m →
  ∃ m', clamp src m = Some m' ∧
    ∀ x y k, x < getWidth src → y < getHeight src → k < 3 →
      ∃ v, channel src m x y k = Some v ∧
           channel src m' x y k = Some (std_min v f256) ∧
           (SFleb v f256 = true → channel src m' x y k = Some v).
Proof.
  intros Hok. destruct (clamp_spec src m Hok) as (m' & Hm' & _ & Hch).
  exists m'. split; [done|]. intros x y k Hx Hy Hk.
  destruct (Hch x y k Hx Hy Hk) as (bs & Hbs & Hbs').
  exists (f32_of_bytes bs). unfold channel. rewrite Hbs, Hbs'. simpl.
  rewrite std_min_bytes_value, f256_bytes_value.
  split; [done|]. split; [done|]. intros Hle. by rewrite std_min_below.
Qed.

(** C10: [clamp] is idempotent, and it never increases a channel. *)
Theorem clamp_idempotent (src : Image) (m : Mem) :
  image_ok src m →
  ∃ m1 m2, clamp src m = Some m1 ∧ clamp src m1 = Some m2 ∧ m2 = m1 ∧
    ∀ x y k, x < getWidth src → y < getHeight src → k < 3 →
      channel src m2 x y k = channel src m1 x y k ∧
      ∃ v v1, channel src m x y k = Some v ∧
              channel src m1 x y k = Some v1 ∧
              f32_lt v v1 = false.
Proof.
  intros Hok. destruct (clamp_spec src m Hok) as (m1 & Hm1 & _ & Hch).
  exists m1, m1. split; [done|]. split; [|split; [done|]].
  - apply clamp_fixed. intros x y k Hx Hy Hk.
    destruct (Hch x y k Hx Hy Hk) as (bs & _ & Hbs').
    exists (std_min_bytes bs f256_bytes). split; [done|].
    apply std_min_bytes_idem.
  - intros x y k Hx Hy Hk. split; [done|].
    destruct (Hch x y k Hx Hy Hk) as (bs & Hbs & Hbs').
    exists (f32_of_bytes bs), (f32_of_bytes (std_min_bytes bs f256_bytes)).
    unfold channel. rewrite Hbs, Hbs'. simpl. split; [done|]. split; [done|].
    rewrite std_min_bytes_value. apply std_min_not_above.
Qed.

Lemma scenario_image_ok : image_ok scenario_image scenario_mem.
Proof.
  split.
  - split; vm_compute; discriminate.
  - intros x y Hx Hy.
    unfold getPixelRef, scenario_image, sizeof_float in *. simpl in *.
    change (msize scenario_mem) with 64. lia.
Defined.

Lemma clamp_caps_channels_witness :
  image_ok scenario_image scenario_mem ∧
  ∃ m', clamp scenario_image scenario_mem = Some m' ∧
    readAt (getPixelRef scenario_image 0 0) m'
      = Some (f32_of_Z 256, f32_of_Z 2, f32_of_Z 7) ∧
    readAt (getPixelRef scenario_image 1 0) m'
      = Some (f32_of_Z 1, f32_of_Z 256, f32_of_Z 100) ∧
    readAt (getPixelRef scenario_image 2 0) m'
      = Some (f32_of_Z 256, f32_of_Z 0, f32_of_Z 255).
Proof.
  split; [exact scenario_image_ok|].
  destruct (clamp_caps_channels scenario_image scenario_mem scenario_image_ok)
    as (m' & Hm' & _).
  exists m'. split; [exact Hm'|].
  vm_compute in Hm'. injection Hm' as <-. vm_compute. done.
Defined.

Lemma clamp_idempotent_witness :
  image_ok scenario_image scenario_mem ∧
  ∃ m1, clamp scenario_image scenario_mem = Some m1 ∧
        clamp scenario_image m1 = Some m1.
Proof.
  split; [exact scenario_image_ok|].
  destruct (clamp_idempotent scenario_image scenario_mem scenario_image_ok)
    as (m1 & m2 & H1 & H2 & -> & _).
  exists m1. split; [exact H1|exact H2].
Defined.

(** ** copyImage *)

(** C2: [copyImage] copies a whole source stride into every destination
    row.  With the two cross images of [createCubemapImage] the source is
    4 texels wide with a stride of 64 bytes, and the copy of row 0
    overwrites the texel [(4, 0)] of the destination, which lies outside of
    the source's width, with the zeroed padding of the source row. *)
Theorem copyImage_overwrites_beyond_width :
  copy_src = mkImage 0 4 3 64 12 ∧
  copy_dst = mkImage 256 8 6 128 12 ∧
  (getWidth copy_src <=? getWidth copy_dst) = true ∧
  (getHeight copy_src <=? getHeight copy_dst) = true ∧
  readAt (getPixelRef copy_dst 4 0) copy_mem = Some (f32_1, f32_1, f32_1) ∧
  (m' ← copyImage copy_dst copy_src copy_mem;
   readAt (getPixelRef copy_dst 4 0) m') = Some (f32_0, f32_0, f32_0).
Proof. vm_compute. done. Qed.

(** ** setFaceFromCross, setAllFacesFromCross *)

Lemma wrap_small (n : N) : n < 2 ^ 64 → wrap n = n.
Proof. intros H. unfold wrap, size_t_bits. by apply N.mod_small. Qed.

Lemma getPixelRef_subset (image : Image) (x0 y0 w h x y : N) :
  getPixelRef (subset image x0 y0 w h) x y
  = getPixelRef image (x0 + x) (y0 + y).
Proof.
  unfold getPixelRef, subset, getBytesPerRow, getBytesPerPixel.
  cbn [mData mBpr mBpp]. unfold getPixelRef. ring.
Qed.

Lemma setImageForFace_subset (cm : Cubemap) (face : Face) (image : Image)
    (x y : N) :
  let dim := getDimensions cm in
  ∃ cm', setImageForFace cm face (subset image x y dim dim) = Some cm' ∧
    getDimensions cm' = dim ∧ getGeometry cm' = getGeometry cm ∧
    getImageForFace cm' face = subset image x y dim dim ∧
    ∀ f, f ≠ face → getImageForFace cm' f = getImageForFace cm f.
Proof.
  intros dim. unfold setImageForFace, getWidth, getHeight. simpl.
  rewrite !N.eqb_refl. simpl. eexists. split; [done|].
  unfold getImageForFace. simpl. repeat split.
  - by rewrite decide_True.
  - intros f Hf. by rewrite decide_False.
Qed.

(** The origin, in texels, of the sub-rectangle a face is read from. *)
Lemma setFaceFromCross_spec (cm : Cubemap) (face : Face) (image : Image) :
  3 * getDimensions cm < 2 ^ 64 →
  let dim := getDimensions cm in
  let cell := crossCell (getWidth image <? getHeight image) face in
  ∃ cm', setFaceFromCross cm face image = Some cm' ∧
    getDimensions cm' = dim ∧ getGeometry cm' = getGeometry cm ∧
    getImageForFace cm' face = subset image (cell.1 * dim) (cell.2 * dim) dim dim ∧
    ∀ f, f ≠ face → getImageForFace cm' f = getImageForFace cm f.
Proof.
  intros Hdim dim cell. unfold setFaceFromCross. fold dim.
  assert (H2 : wrap (2 * dim) = 2 * dim) by (apply wrap_small; lia).
  assert (H3 : wrap (3 * dim) = 3 * dim) by (apply wrap_small; lia).
  rewrite H2, H3. subst cell.
  destruct face; simpl; rewrite ?N.mul_1_l;
    try apply setImageForFace_subset.
  destruct (getWidth image <? getHeight image); simpl; rewrite ?N.mul_1_l;
    apply setImageForFace_subset.
Qed.

(** C3: [setFaceFromCross] reads a face from the N x N sub-rectangle of the
    cross whose top-left cell, in units of N, is NX (0,1), PX (2,1),
    NY (1,2), PY (1,0), PZ (1,1), and NZ (1,3) when the cross is taller than
    wide, (3,1) otherwise. *)
Theorem setFaceFromCross_cell (cm : Cubemap) (face : Face) (image : Image) :
  3 * getDimensions cm < 2 ^ 64 →
  let dim := getDimensions cm in
  let vertical := getWidth image <? getHeight image in
  ∃ cm', setFaceFromCross cm face image = Some cm' ∧
    getImageForFace cm' face
      = subset image ((crossCell vertical face).1 * dim)
                     ((crossCell vertical face).2 * dim) dim dim ∧
    (∀ x y, getPixelRef (getImageForFace cm' face) x y
            = getPixelRef image ((crossCell vertical face).1 * dim + x)
                                ((crossCell vertical face).2 * dim + y)) ∧
    crossCell vertical NX = (0, 1) ∧ crossCell vertical PX = (2, 1) ∧
    crossCell vertical NY = (1, 2) ∧ crossCell vertical PY = (1, 0) ∧
    crossCell vertical PZ = (1, 1) ∧
    crossCell vertical NZ = (if vertical then (1, 3) else (3, 1)).
Proof.
  intros Hdim dim vertical.
  destruct (setFaceFromCross_spec cm face image Hdim) as (cm' & H & _ & _ & Hf & _).
  exists cm'. split; [done|]. split; [done|]. split; [|done].
  intros x y. rewrite Hf. apply getPixelRef_subset.
Qed.

(** C9: a cross as high as wide is read as a horizontal cross, with NZ at
    cell (3,1); only a cross strictly taller than wide is a vertical one. *)
Theorem square_cross_is_horizontal (cm : Cubemap) (image : Image) :
  3 * getDimensions cm < 2 ^ 64 →
  let dim := getDimensions cm in
  ∃ cm', setAllFacesFromCross cm image = Some cm' ∧
    (getGeometry cm' = VERTICAL_CROSS ↔ getWidth image < getHeight image) ∧
    (getHeight image = getWidth image →
       getGeometry cm' = HORIZONTAL_CROSS ∧
       getImageForFace cm' NZ = subset image (3 * dim) (1 * dim) dim dim ∧
       ∃ cm'', setFaceFromCross cm NZ image = Some cm'' ∧
         getImageForFace cm'' NZ = subset image (3 * dim) (1 * dim) dim dim).
Proof.
  intros Hdim dim. unfold setAllFacesFromCross.
  set (g := if getWidth image <? getHeight image
            then VERTICAL_CROSS else HORIZONTAL_CROSS).
  set (cm0 := setGeometry cm g).
  assert (Hd0 : 3 * getDimensions cm0 < 2 ^ 64) by done.
  destruct (setFaceFromCross_spec cm0 NX image Hd0) as (c1 & -> & D1 & G1 & _ & _). simpl.
  assert (Hd1 : 3 * getDimensions c1 < 2 ^ 64) by by rewrite D1.
  destruct (setFaceFromCross_spec c1 PX image Hd1) as (c2 & -> & D2 & G2 & _ & _). simpl.
  assert (Hd2 : 3 * getDimensions c2 < 2 ^ 64) by by rewrite D2, D1.
  destruct (setFaceFromCross_spec c2 NY image Hd2) as (c3 & -> & D3 & G3 & _ & _). simpl.
  assert (Hd3 : 3 * getDimensions c3 < 2 ^ 64) by by rewrite D3, D2, D1.
  destruct (setFaceFromCross_spec c3 PY image Hd3) as (c4 & -> & D4 & G4 & _ & _). simpl.
  assert (Hd4 : 3 * getDimensions c4 < 2 ^ 64) by by rewrite D4, D3, D2, D1.
  destruct (setFaceFromCross_spec c4 NZ image Hd4) as (c5 & -> & D5 & G5 & F5 & _). simpl.
  assert (Hd5 : 3 * getDimensions c5 < 2 ^ 64) by by rewrite D5, D4, D3, D2, D1.
  destruct (setFaceFromCross_spec c5 PZ image Hd5) as (c6 & -> & D6 & G6 & _ & O6). simpl.
  exists c6. split; [done|].
  assert (HG : getGeometry c6 = g) by by rewrite G6, G5, G4, G3, G2, G1.
  assert (HD : getDimensions c4 = dim) by by rewrite D4, D3, D2, D1.
  split.
  - rewrite HG. subst g. destruct (N.ltb_spec (getWidth image) (getHeight image));
      split; try done; lia.
  - intros Heq. rewrite HG. subst g.
    assert (Hlt : (getWidth image <? getHeight image) = false)
      by (apply N.ltb_ge; lia).
    rewrite Hlt. split; [done|]. split.
    + rewrite (O6 NZ) by done. rewrite F5, Hlt, HD. done.
    + destruct (setFaceFromCross_spec cm NZ image Hdim) as (c & Hc & _ & _ & Fc & _).
      exists c. split; [done|]. by rewrite Fc, Hlt.
Qed.

Lemma setFaceFromCross_cell_witness :
  3 * getDimensions (newCubemap 16) < 2 ^ 64 ∧
  ∃ cm', setFaceFromCross (newCubemap 16) NZ (mkImage 0 64 48 800 12) = Some cm' ∧
    getImageForFace cm' NZ = subset (mkImage 0 64 48 800 12) 48 16 16 16.
Proof.
  split; [done|].
  destruct (setFaceFromCross_cell (newCubemap 16) NZ (mkImage 0 64 48 800 12))
    as (cm' & H & Hf & _); [done|].
  exists cm'. split; [exact H|exact Hf].
Defined.

Lemma square_cross_is_horizontal_witness :
  3 * getDimensions (newCubemap 4) < 2 ^ 64 ∧
  getHeight (mkImage 0 16 16 224 12) = getWidth (mkImage 0 16 16 224 12) ∧
  ∃ cm', setAllFacesFromCross (newCubemap 4) (mkImage 0 16 16 224 12) = Some cm' ∧
    getGeometry cm' = HORIZONTAL_CROSS ∧
    getImageForFace cm' NZ = subset (mkImage 0 16 16 224 12) 12 4 4 4.
Proof.
  split; [done|]. split; [done|].
  destruct (square_cross_is_horizontal (newCubemap 4) (mkImage 0 16 16 224 12))
    as (cm' & H & _ & Hsq); [done|].
  destruct (Hsq eq_refl) as (Hg & Hf & _).
  exists cm'. split; [exact H|]. split; [exact Hg|exact Hf].
Defined.

(** ** generateUVGrid *)

Lemma for_range_ext {S : Type} (n : N) (body body' : N → S → option S) (s : S) :
  (∀ i t, i < n → body i t = body' i t) →
  for_range n body s = for_range n body' s.
Proof.
  intros H.
  assert (Hk : ∀ k, k ≤ n → for_range k body s = for_range k body' s).
  { intros k. induction k as [|k IH] using N.peano_ind; intros Hle; [done|].
    rewrite !for_range_succ, IH by lia.
    destruct (for_range k body' s) as [t|]; [|done]. simpl. apply H. lia. }
  apply Hk. lia.
Qed.

(** A loop that advances a pointer by [step] at every iteration. *)
Lemma for_range_pointer (n step d0 : N) (g : N → N → Mem → option Mem) (m : Mem) :
  for_range n (λ x '(d, m), m' ← g x d m; Some (d + step, m')) (d0, m)
  = (λ m', (d0 + n * step, m')) <$>
      for_range n (λ x m, g x (d0 + x * step) m) m.
Proof.
  induction n as [|n IH] using N.peano_ind.
  - rewrite !for_range_0. simpl. by rewrite N.add_0_r.
  - rewrite !for_range_succ, IH.
    destruct (for_range n _ m) as [m1|]; [|done]. simpl.
    destruct (g n (d0 + n * step) m1) as [m2|]; [|done]. simpl.
    do 2 f_equal. lia.
Qed.

Lemma load_sub (m : Mem) (p n a k : N) (bs : list byte) :
  load m p n = Some bs → a + k ≤ n →
  load m (p + a) k = Some (take (N.to_nat k) (drop (N.to_nat a) bs)).
Proof.
  intros H Hak. destruct (load_inv _ _ _ _ H) as (Hle & Hlen & Hbs).
  unfold load. destruct (N.leb_spec (p + a + k) (msize m)) as [_|?]; [|lia].
  f_equal. apply list_eq. intros j.
  destruct (decide (j < N.to_nat k)%nat) as [Hj|Hj].
  - rewrite !lookup_take_lt, !lookup_drop by done.
    rewrite Hbs by lia. f_equal. lia.
  - by rewrite !lookup_take_ge by lia.
Qed.

Lemma Texel_bytes_length (t : Texel) : length (Texel_bytes t) = 12%nat.
Proof. by destruct t as [[r g] b]. Qed.

(** Reading a texel back decodes the three floats that were stored. *)
Lemma readAt_Texel_bytes (m : Mem) (p : N) (t : Texel) :
  load m p sizeof_Texel = Some (Texel_bytes t) →
  readAt p m = Some (f32_of_bytes (bytes_of_f32 t.1.1),
                     f32_of_bytes (bytes_of_f32 t.1.2),
                     f32_of_bytes (bytes_of_f32 t.2)).
Proof.
  intros H. destruct t as [[r g] b]. unfold readAt.
  pose proof (load_sub m p sizeof_Texel 0 sizeof_float _ H) as H0.
  pose proof (load_sub m p sizeof_Texel sizeof_float sizeof_float _ H) as H1.
  pose proof (load_sub m p sizeof_Texel (2 * sizeof_float) sizeof_float _ H) as H2.
  rewrite N.add_0_r in H0.
  rewrite H0, H1, H2 by (unfold sizeof_Texel, sizeof_float; lia). done.
Qed.

Lemma gridParity_odd (gridSize x y : N) :
  gridParity gridSize x y = N.odd (N.lxor (x / gridSize) (y / gridSize)).
Proof.
  unfold gridParity. by destruct (N.lxor _ _) as [|[p|p|]].
Qed.

Lemma uvTexel_checkerboard (dim gridFrequency : N) (f : Face) (x y : N) :
  uvTexel (dim / gridFrequency) f x y = checkerboard dim gridFrequency f x y.
Proof.
  unfold uvTexel, checkerboard. rewrite gridParity_odd.
  destruct (N.odd _); [|done]. by destruct f.
Qed.

(** The floats of the grid survive the store. *)
Lemma uvTexel_stored (gridSize : N) (f : Face) (x y : N) :
  let t := uvTexel gridSize f x y in
  (f32_of_bytes (bytes_of_f32 t.1.1), f32_of_bytes (bytes_of_f32 t.1.2),
   f32_of_bytes (bytes_of_f32 t.2)) = t.
Proof. unfold uvTexel. destruct (gridParity _ _ _), f; vm_compute; done. Qed.

Section UVGrid.

Variable cml : Cubemap.
Variable gridSize : N.
Hypothesis Hbpp : ∀ f, getBytesPerPixel (getImageForFace cml f) = sizeof_Texel.
Hypothesis Hsep :
  separated (texel_addr cml) sizeof_Texel (texel_of_cubemap cml).
Hypothesis HgridSize : gridSize ≠ 0.

Lemma writeAt_updates (f : Face) (x y : N) :
  updates (texel_addr cml) sizeof_Texel (uvBytes gridSize)
    (writeAt (getPixelRef (getImageForFace cml f) 0 y + x * sizeof_Texel)
       (uvTexel gridSize f x y))
    (eq (f, x, y)).
Proof.
  assert (Ha : getPixelRef (getImageForFace cml f) 0 y + x * sizeof_Texel
               = texel_addr cml (f, x, y)).
  { unfold texel_addr, getPixelRef. simpl. specialize (Hbpp f).
    unfold getBytesPerPixel in Hbpp. rewrite Hbpp. lia. }
  rewrite Ha. intros m Halloc. specialize (Halloc _ eq_refl).
  destruct (store_Some m (texel_addr cml (f, x, y))
              (Texel_bytes (uvTexel gridSize f x y))) as (m' & Hm').
  { by rewrite Texel_bytes_length. }
  destruct (load_Some m _ _ Halloc) as (bs & Hbs).
  exists m'. unfold writeAt. split; [done|].
  split; [by destruct (store_inv _ _ _ _ Hm')|]. split.
  - intros i <-. rewrite Hbs. simpl.
    apply load_store_eq in Hm'. by rewrite Texel_bytes_length in Hm'.
  - intros q n Hq. eapply load_store_disjoint; [done|].
    rewrite Texel_bytes_length. by apply (Hq (f, x, y)).
Qed.

Lemma uvRow_writes (y : N) (f : Face) (data dim : N) (m : Mem) :
  uvRow gridSize y f data dim m
  = for_range dim (λ x, writeAt (data + x * sizeof_Texel)
                          (uvTexel gridSize f x y)) m.
Proof.
  unfold uvRow.
  rewrite (for_range_ext dim _
    (λ x '(d, m), m' ← writeAt d (uvTexel gridSize f x y) m;
                  Some (d + sizeof_Texel, m'))).
  - rewrite for_range_pointer. by destruct (for_range dim _ m).
  - intros x [d t] _. by rewrite (proj2 (N.eqb_neq _ _) HgridSize).
Qed.

Lemma uvRow_updates (f : Face) (y : N) :
  y < getDimensions cml →
  updates (texel_addr cml) sizeof_Texel (uvBytes gridSize)
    (uvRow gridSize y f (getPixelRef (getImageForFace cml f) 0 y)
       (getDimensions cml))
    (λ i, texel_of_cubemap cml i ∧ i.1.1 = f ∧ i.2 = y).
Proof.
  intros Hy.
  apply updates_ext with
    (op := for_range (getDimensions cml) (λ x,
             writeAt (getPixelRef (getImageForFace cml f) 0 y + x * sizeof_Texel)
               (uvTexel gridSize f x y)))
    (D := λ i, texel_of_cubemap cml i ∧ i.1.1 = f ∧ i.2 = y);
    [apply uvRow_writes|done|].
  apply updates_for_range with (Ds := λ x, eq (f, x, y)).
  - eapply separated_mono; [|apply Hsep]. by intros i [? _].
  - intros x i Hx <-. by repeat split.
  - intros [[f' x] y'] [[Hx _] [Hf Hy']]. simpl in *. subst. by exists x.
  - by intros x x' i _ _ <- [= ->].
  - intros x _. apply writeAt_updates.
Qed.

Lemma uvFace_updates (f : Face) :
  updates (texel_addr cml) sizeof_Texel (uvBytes gridSize)
    (for_range (getDimensions cml) (λ y,
       uvRow gridSize y f (getPixelRef (getImageForFace cml f) 0 y)
         (getDimensions cml)))
    (λ i, texel_of_cubemap cml i ∧ i.1.1 = f).
Proof.
  apply updates_for_range
    with (Ds := λ y i, texel_of_cubemap cml i ∧ i.1.1 = f ∧ i.2 = y).
  - eapply separated_mono; [|apply Hsep]. by intros i [? _].
  - by intros y i _ (? & ? & _).
  - intros i [Hi Hf]. exists i.2. split; [apply Hi|done].
  - by intros y y' i _ _ (_ & _ & <-) (_ & _ & <-).
  - intros y Hy. by apply uvRow_updates.
Qed.

Lemma face_of_index_of_face (f : Face) : face_of_index (index_of_face f) = f.
Proof. by destruct f. Qed.

Lemma index_of_face_of_index (i : N) : i < 6 → index_of_face (face_of_index i) = i.
Proof.
  intros H. destruct i as [|[[[]|[]|]|[[]|[]|]|]]; simpl; try done; lia.
Qed.

Lemma uvGrid_updates :
  updates (texel_addr cml) sizeof_Texel (uvBytes gridSize)
    (process cml (uvRow gridSize)) (texel_of_cubemap cml).
Proof.
  unfold process.
  apply updates_for_range
    with (Ds := λ k i, texel_of_cubemap cml i ∧ i.1.1 = face_of_index k).
  - apply Hsep.
  - by intros k i _ [? _].
  - intros i Hi. exists (index_of_face i.1.1). split.
    + by destruct (i.1.1).
    + by rewrite face_of_index_of_face.
  - intros k k' i Hk Hk' [_ H1] [_ H2].
    rewrite <- (index_of_face_of_index k), <- (index_of_face_of_index k') by done.
    congruence.
  - intros k _. apply uvFace_updates.
Qed.

End UVGrid.

Lemma generateUVGrid_process (cml : Cubemap) (gridFrequency : N) (m : Mem) :
  gridFrequency ≠ 0 →
  generateUVGrid cml gridFrequency m
  = process cml (uvRow (getDimensions cml / gridFrequency)) m.
Proof.
  intros H. unfold generateUVGrid.
  by rewrite (proj2 (N.eqb_neq _ _) H).
Qed.


Lemma uv_cubemap_face (f : Face) :
  getImageForFace uv_cubemap f
  = mkImage (match f with
             | NX => 12800 | PX => 13184 | NY => 25792
             | PY => 192 | NZ => 13376 | PZ => 12992
             end) 16 16 800 12.
Proof. by destruct f. Qed.

Lemma uv_mem_size : msize uv_mem = 39200.
Proof. by vm_compute. Qed.

Lemma uv_cubemap_ok : cubemap_ok uv_cubemap uv_mem.
Proof.
  split; [|split].
  - intros f. by rewrite uv_cubemap_face.
  - intros [[f x] y] [[f' x'] y'] [Hx Hy] [Hx' Hy'] Hne.
    unfold texel_addr, getPixelRef. rewrite !uv_cubemap_face.
    change (getDimensions uv_cubemap) with 16 in *.
    unfold sizeof_Texel. cbn [fst snd mData mBpr mBpp] in *.
    assert (f ≠ f' ∨ x ≠ x' ∨ y ≠ y') as Hd.
    { destruct (decide (f = f')) as [->|]; [|by left].
      destruct (decide (x = x')) as [->|]; [|by right; left].
      destruct (decide (y = y')) as [->|]; [done|by right; right]. }
    clear Hne.
    destruct f, f'; first [lia | destruct Hd as [?|?]; [done|lia]].
  - intros [[f x] y] [Hx Hy].
    unfold texel_addr, getPixelRef. rewrite uv_cubemap_face, uv_mem_size.
    change (getDimensions uv_cubemap) with 16 in *.
    unfold sizeof_Texel. cbn [fst snd mData mBpr mBpp] in *.
    destruct f; lia.
Qed.


(** ** More on copyImage *)

Lemma memcpy_spec (m : Mem) (dst src n : N) :
  src + n ≤ msize m → dst + n ≤ msize m →
  dst + n ≤ src ∨ src + n ≤ dst →
  ∃ m' bs, load m src n = Some bs ∧ memcpy m dst src n = Some m' ∧
    length m' = length m ∧ load m' dst n = Some bs ∧
    ∀ q k, q + k ≤ dst ∨ dst + n ≤ q → load m' q k = load m q k.
Proof.
  intros Hs Hd Hdis. destruct (load_Some m src n Hs) as (bs & Hbs).
  destruct (load_inv _ _ _ _ Hbs) as (_ & Hlen & _).
  assert (Hn : N.of_nat (length bs) = n) by lia.
  destruct (store_Some m dst bs) as (m' & Hm'); [by rewrite Hn|].
  exists m', bs. split; [done|]. unfold memcpy. rewrite Hbs. simpl.
  assert (Hc : (dst + n <=? src) || (src + n <=? dst) || (n =? 0) = true).
  { destruct Hdis as [H|H].
    - by rewrite (proj2 (N.leb_le _ _) H).
    - rewrite (proj2 (N.leb_le _ _) H). by rewrite orb_true_r. }
  rewrite Hc. split; [done|].
  split; [by destruct (store_inv _ _ _ _ Hm')|]. split.
  - apply load_store_eq in Hm'. by rewrite Hn in Hm'.
  - intros q k Hq. eapply load_store_disjoint; [done|]. by rewrite Hn.
Qed.

Lemma copy_dst_rows_apart (dst : Image) (n y y' : N) :
  n ≤ getBytesPerRow dst → y ≠ y' →
  copy_dst_row dst y + n ≤ copy_dst_row dst y' ∨
  copy_dst_row dst y' + n ≤ copy_dst_row dst y.
Proof.
  intros Hn Hy. unfold copy_dst_row, getPixelRef, getBytesPerRow in *.
  destruct (N.lt_trichotomy y y') as [Hlt|[->|Hlt]]; [left|done|right].
  - assert (N.succ y * mBpr dst ≤ y' * mBpr dst)
      by (apply N.mul_le_mono_r; lia). lia.
  - assert (N.succ y' * mBpr dst ≤ y * mBpr dst)
      by (apply N.mul_le_mono_r; lia). lia.
Qed.

(** The effect of a copy on the memory, row by row. *)
Lemma copyImage_spec (dst src : Image) (m : Mem) :
  copy_ok dst src m →
  ∃ m', copyImage dst src m = Some m' ∧ length m' = length m ∧
    (∀ y, y < getHeight src →
       load m' (copy_dst_row dst y) (getBytesPerRow src)
       = load m (copy_src_row src y) (getBytesPerRow src)) ∧
    (∀ q k, (∀ y, y < getHeight src →
               q + k ≤ copy_dst_row dst y ∨
               copy_dst_row dst y + getBytesPerRow src ≤ q) →
       load m' q k = load m q k).
Proof.
  intros (Hw & Hh & Hbpr & Hin & Hdis). unfold copyImage.
  rewrite (proj2 (N.leb_le _ _) Hw), (proj2 (N.leb_le _ _) Hh). simpl.
  set (n := getBytesPerRow src) in *.
  destruct (for_range_inv (λ k s,
      length s = length m ∧
      (∀ y, y < k → load s (copy_dst_row dst y) n
                    = load m (copy_src_row src y) n) ∧
      (∀ q j, (∀ y, y < getHeight src →
                 q + j ≤ copy_dst_row dst y ∨ copy_dst_row dst y + n ≤ q) →
         load s q j = load m q j))
    (getHeight src)
    (λ y s, memcpy s (getPixelRef dst 0 y) (getPixelRef src 0 y) n) m)
    as (m' & Hm' & Hlen & Hrows & Hframe).
  - split; [done|]. split; [intros y Hy; lia|done].
  - intros k s Hk (Hlen & Hrows & Hframe).
    destruct (Hin k Hk) as [Hsk Hdk].
    destruct (memcpy_spec s (copy_dst_row dst k) (copy_src_row src k) n)
      as (s' & bs & Hbs & Hs' & Hlen' & Hnew & Hout).
    { unfold msize. by rewrite Hlen. }
    { unfold msize. by rewrite Hlen. }
    { apply Hdis; done. }
    assert (Hsrc : load s (copy_src_row src k) n = load m (copy_src_row src k) n).
    { apply Hframe. intros y Hy. destruct (Hdis y k Hy Hk); [by right|by left]. }
    exists s'. split; [exact Hs'|]. split; [congruence|]. split.
    + intros y Hy. destruct (decide (y = k)) as [->|Hne].
      * by rewrite Hnew, <- Hsrc.
      * rewrite Hout; [apply Hrows; lia|].
        destruct (copy_dst_rows_apart dst n y k Hbpr Hne); [by left|by right].
    + intros q j Hq. rewrite Hout; [by apply Hframe|].
      destruct (Hq k Hk); [by left|by right].
  - exists m'. done.
Qed.

(** X1: under [copy_ok] the copy succeeds; the first source stride of every
    row of the destination then holds the bytes of the row of the source,
    so every texel of the source is found at the same place of the
    destination; the source and every byte outside of the copied runs are
    as before. *)
Theorem copyImage_copies_rows (dst src : Image) (m : Mem) :
  copy_ok dst src m →
  ∃ m', copyImage dst src m = Some m' ∧ length m' = length m ∧
    (∀ y, y < getHeight src →
       load m' (copy_dst_row dst y) (getBytesPerRow src)
       = load m (copy_src_row src y) (getBytesPerRow src) ∧
       load m' (copy_src_row src y) (getBytesPerRow src)
       = load m (copy_src_row src y) (getBytesPerRow src)) ∧
    (getBytesPerPixel dst = getBytesPerPixel src →
     getWidth src * getBytesPerPixel src ≤ getBytesPerRow src →
     ∀ x y, x < getWidth src → y < getHeight src →
       load m' (getPixelRef dst x y) (getBytesPerPixel src)
       = load m (getPixelRef src x y) (getBytesPerPixel src)) ∧
    (∀ q k, (∀ y, y < getHeight src →
               q + k ≤ copy_dst_row dst y ∨
               copy_dst_row dst y + getBytesPerRow src ≤ q) →
       load m' q k = load m q k).
Proof.
  intros Hok. destruct (copyImage_spec dst src m Hok)
    as (m' & Hm' & Hlen & Hrows & Hframe).
  destruct Hok as (Hw & Hh & Hbpr & Hin & Hdis).
  exists m'. split; [done|]. split; [done|]. split; [|split; [|done]].
  - intros y Hy. split; [by apply Hrows|].
    apply Hframe. intros y' Hy'.
    destruct (Hdis y' y Hy' Hy); [by right|by left].
  - intros Hbpp Hrow x y Hx Hy.
    destruct (Hin y Hy) as [Hsy Hdy].
    destruct (load_Some m _ _ Hsy) as (bs & Hbs).
    pose proof (Hrows y Hy) as Hr. rewrite Hbs in Hr.
    assert (Hfit : x * getBytesPerPixel src + getBytesPerPixel src
                   ≤ getBytesPerRow src).
    { assert (N.succ x * getBytesPerPixel src
              ≤ getWidth src * getBytesPerPixel src)
        by (apply N.mul_le_mono_r; lia). lia. }
    pose proof (load_sub _ _ _ _ _ _ Hr Hfit) as Hd.
    pose proof (load_sub _ _ _ _ _ _ Hbs Hfit) as Hs.
    assert (Ed : getPixelRef dst x y
                 = copy_dst_row dst y + x * getBytesPerPixel src).
    { unfold copy_dst_row, getPixelRef, getBytesPerPixel in *.
      rewrite Hbpp. lia. }
    assert (Es : getPixelRef src x y
                 = copy_src_row src y + x * getBytesPerPixel src).
    { unfold copy_src_row, getPixelRef, getBytesPerPixel in *. lia. }
    by rewrite Ed, Es, Hd, Hs.
Qed.

(** ** createCubemapImage, create *)

(** [a & ~31] on 64 bits rounds down to a multiple of 32. *)
Lemma land_not_31 (a : N) :
  a < 2 ^ 64 → N.land a (2 ^ 64 - 32) = 32 * (a / 32).
Proof.
  intros Ha.
  change (2 ^ 64 - 32) with (N.ldiff (N.ones 64) (N.ones 5)).
  assert (H : N.land a (N.ldiff (N.ones 64) (N.ones 5))
              = N.ldiff (N.land a (N.ones 64)) (N.ones 5)).
  { apply N.bits_inj. intros n.
    rewrite N.land_spec, !N.ldiff_spec, N.land_spec. apply andb_assoc. }
  rewrite H, N.land_ones, (N.mod_small a (2 ^ 64)) by done.
  rewrite N.ldiff_ones_r, N.shiftl_mul_pow2, N.shiftr_div_pow2.
  change (2 ^ 5) with 32. lia.
Qed.

Lemma round_up_32 (a : N) :
  a ≤ 32 * ((a + 31) / 32) < a + 32 ∧ (32 * ((a + 31) / 32)) mod 32 = 0.
Proof.
  assert (H32 : 32 ≠ 0) by done.
  pose proof (N.div_mod (a + 31) 32 H32) as Hd.
  pose proof (N.mod_lt (a + 31) 32 H32) as Hm.
  split; [|rewrite N.mul_comm; by apply N.Div0.mod_mul].
  remember ((a + 31) / 32) as q. remember ((a + 31) mod 32) as r.
  clear Heqq Heqr H32. lia.
Qed.

(** The stride and the size of the buffer [createCubemapImage] computes
    for a cross of [width] by [height] texels. *)
Lemma cross_buffer (width height : N) :
  width < 2 ^ 30 + 1 → height < 2 ^ 30 + 1 → width + height < 2 ^ 31 →
  let bpr := N.land (wrap (wrap (wrap (width + 1) * sizeof_Texel) + 31))
                    (2 ^ size_t_bits - 32) in
  (width + 1) * sizeof_Texel ≤ bpr < (width + 1) * sizeof_Texel + 32 ∧
  bpr mod 32 = 0 ∧
  wrap (bpr * wrap (height + 1)) = bpr * (height + 1).
Proof.
  intros Hw Hh Hwh. unfold sizeof_Texel, size_t_bits.
  change (2 ^ 30 + 1) with 1073741825 in *.
  change (2 ^ 31) with 2147483648 in *.
  rewrite (wrap_small (width + 1)) by (change (2 ^ 64) with 18446744073709551616; lia).
  rewrite (wrap_small ((width + 1) * 12))
    by (change (2 ^ 64) with 18446744073709551616; lia).
  rewrite (wrap_small ((width + 1) * 12 + 31))
    by (change (2 ^ 64) with 18446744073709551616; lia).
  rewrite (wrap_small (height + 1))
    by (change (2 ^ 64) with 18446744073709551616; lia).
  rewrite land_not_31 by (change (2 ^ 64) with 18446744073709551616; lia).
  destruct (round_up_32 ((width + 1) * 12)) as [Hr Hm]. cbv zeta.
  split; [done|]. split; [done|].
  apply wrap_small.
  set (bpr := 32 * (((width + 1) * 12 + 31) / 32)) in *.
  change (2 ^ 64) with 18446744073709551616. nia.
Qed.

Lemma createCubemapImage_eq (dim : N) (horizontal : bool) (m : Mem) :
  dim < 2 ^ 28 →
  createCubemapImage dim horizontal m
  = (crossImage horizontal dim (msize m),
     m ++ replicate
            (N.to_nat (crossStride (crossWidth horizontal dim)
                       * (crossHeight horizontal dim + 1))) x00).
Proof.
  intros Hdim. change (2 ^ 28) with 268435456 in Hdim.
  unfold createCubemapImage.
  rewrite (wrap_small (4 * dim)), (wrap_small (3 * dim))
    by (change (2 ^ 64) with 18446744073709551616; lia).
  assert (H : ∀ width height,
            width < 2 ^ 30 + 1 → height < 2 ^ 30 + 1 → width + height < 2 ^ 31 →
            (let bpr := wrap (wrap (width + 1) * sizeof_Texel) in
             let bpr0 := N.land (wrap (bpr + 31)) (2 ^ size_t_bits - 32) in
             let bufSize := wrap (bpr0 * wrap (height + 1)) in
             let '(data, m0) := alloc_zeroed bufSize m in
             (mkImage data width height bpr0 sizeof_Texel, m0))
            = (mkImage (msize m) width height (crossStride width) sizeof_Texel,
               m ++ replicate (N.to_nat (crossStride width * (height + 1))) x00)).
  { intros width height Hw Hh Hwh. cbv zeta.
    destruct (cross_buffer width height Hw Hh Hwh) as (_ & _ & Hbuf).
    cbv zeta in Hbuf. rewrite Hbuf. unfold alloc_zeroed.
    assert (Hs : N.land (wrap (wrap (wrap (width + 1) * sizeof_Texel) + 31))
                   (2 ^ size_t_bits - 32) = crossStride width).
    { unfold crossStride, sizeof_Texel, size_t_bits.
      change (2 ^ 30 + 1) with 1073741825 in *.
      rewrite (wrap_small (width + 1))
        by (change (2 ^ 64) with 18446744073709551616; lia).
      rewrite (wrap_small ((width + 1) * 12))
        by (change (2 ^ 64) with 18446744073709551616; lia).
      rewrite (wrap_small ((width + 1) * 12 + 31))
        by (change (2 ^ 64) with 18446744073709551616; lia).
      apply land_not_31. change (2 ^ 64) with 18446744073709551616. lia. }
    by rewrite Hs. }
  change (2 ^ 30 + 1) with 1073741825 in H. change (2 ^ 31) with 2147483648 in H.
  unfold crossImage, crossWidth, crossHeight.
  destruct horizontal; apply H; lia.
Qed.

Lemma crossStride_bounds (width : N) :
  (width + 1) * sizeof_Texel ≤ crossStride width
    < (width + 1) * sizeof_Texel + 32 ∧
  crossStride width mod 32 = 0.
Proof. apply round_up_32. Qed.

Lemma msize_app (m k : Mem) : msize (m ++ k) = msize m + msize k.
Proof. unfold msize. rewrite length_app. lia. Qed.

Lemma msize_replicate (n : N) (b : byte) : msize (replicate (N.to_nat n) b) = n.
Proof. unfold msize. rewrite length_replicate. lia. Qed.

(** The texels of a cross, the seam column and the seam row included, lie
    in its buffer. *)
Lemma crossImage_allocated (horizontal : bool) (dim data : N) (m : Mem) :
  data + crossStride (crossWidth horizontal dim)
         * (crossHeight horizontal dim + 1) ≤ msize m →
  ∀ x y, x ≤ crossWidth horizontal dim → y ≤ crossHeight horizontal dim →
    getPixelRef (crossImage horizontal dim data) x y + sizeof_Texel ≤ msize m.
Proof.
  intros Hm x y Hx Hy. unfold getPixelRef, crossImage. cbn [mData mBpr mBpp].
  set (W := crossWidth horizontal dim) in *.
  set (H := crossHeight horizontal dim) in *.
  destruct (crossStride_bounds W) as [[Hlo _] _].
  assert (y * crossStride W ≤ H * crossStride W) by (by apply N.mul_le_mono_r).
  assert (N.succ x * sizeof_Texel ≤ (W + 1) * sizeof_Texel)
    by (apply N.mul_le_mono_r; lia).
  unfold sizeof_Texel in *. lia.
Qed.

(** X2: for a dimension below 2^28 (no [size_t] computation wraps),
    [createCubemapImage] appends a zeroed buffer to the memory and returns
    the cross image on it: 4 by 3 faces (3 by 4 when vertical) of 12-byte
    texels, a stride that is a multiple of 32 and holds one texel more than
    the width, one row more than the height; all its texels, the seam
    column and row included, lie in the buffer and do not overlap. *)
Theorem createCubemapImage_layout (dim : N) (horizontal : bool) (m : Mem) :
  dim < 2 ^ 28 →
  let image := (createCubemapImage dim horizontal m).1 in
  let m' := (createCubemapImage dim horizontal m).2 in
  getWidth image = (if horizontal then 4 else 3) * dim ∧
  getHeight image = (if horizontal then 3 else 4) * dim ∧
  getBytesPerPixel image = sizeof_Texel ∧
  getBytesPerRow image mod 32 = 0 ∧
  (getWidth image + 1) * sizeof_Texel ≤ getBytesPerRow image
    < (getWidth image + 1) * sizeof_Texel + 32 ∧
  mData image = msize m ∧
  m' = m ++ replicate
              (N.to_nat (getBytesPerRow image * (getHeight image + 1))) x00 ∧
  (∀ x y, x ≤ getWidth image → y ≤ getHeight image →
     getPixelRef image x y + sizeof_Texel ≤ msize m') ∧
  image_ok image m'.
Proof.
  intros Hdim. rewrite (createCubemapImage_eq dim horizontal m Hdim).
  cbn [fst snd]. unfold crossImage at 1 2 3 4 5 6 7 8 9.
  unfold getWidth, getHeight, getBytesPerPixel, getBytesPerRow.
  cbn [mWidth mHeight mBpp mBpr mData].
  destruct (crossStride_bounds (crossWidth horizontal dim)) as [Hb Hmod].
  assert (Hall : ∀ x y, x ≤ crossWidth horizontal dim →
            y ≤ crossHeight horizontal dim →
            getPixelRef (crossImage horizontal dim (msize m)) x y + sizeof_Texel
            ≤ msize (m ++ replicate
                       (N.to_nat (crossStride (crossWidth horizontal dim)
                                  * (crossHeight horizontal dim + 1))) x00)).
  { apply crossImage_allocated. rewrite msize_app, msize_replicate. lia. }
  repeat split; try done; try apply Hb.
  - unfold crossImage, getBytesPerPixel, getWidth, getBytesPerRow.
    cbn [mWidth mBpp mBpr]. unfold sizeof_Texel in *. lia.
  - intros x y Hx Hy. unfold crossImage, getWidth, getHeight in Hx, Hy.
    cbn [mWidth mHeight] in Hx, Hy.
    change (3 * sizeof_float) with sizeof_Texel. apply Hall; lia.
Qed.

(** All the faces after [setAllFacesFromCross]. *)
Lemma setAllFacesFromCross_spec (cm : Cubemap) (image : Image) :
  3 * getDimensions cm < 2 ^ 64 →
  let dim := getDimensions cm in
  let vertical := getWidth image <? getHeight image in
  ∃ cm', setAllFacesFromCross cm image = Some cm' ∧
    getDimensions cm' = dim ∧
    getGeometry cm'
      = (if vertical then VERTICAL_CROSS else HORIZONTAL_CROSS) ∧
    ∀ f, getImageForFace cm' f
         = subset image ((crossCell vertical f).1 * dim)
                        ((crossCell vertical f).2 * dim) dim dim.
Proof.
  intros Hdim dim vertical. unfold setAllFacesFromCross. fold vertical.
  set (g := if vertical then VERTICAL_CROSS else HORIZONTAL_CROSS).
  set (cm0 := setGeometry cm g).
  assert (Hd0 : 3 * getDimensions cm0 < 2 ^ 64) by done.
  destruct (setFaceFromCross_spec cm0 NX image Hd0)
    as (c1 & -> & D1 & G1 & F1 & _). simpl.
  assert (Hd1 : 3 * getDimensions c1 < 2 ^ 64) by by rewrite D1.
  destruct (setFaceFromCross_spec c1 PX image Hd1)
    as (c2 & -> & D2 & G2 & F2 & O2). simpl.
  assert (Hd2 : 3 * getDimensions c2 < 2 ^ 64) by by rewrite D2, D1.
  destruct (setFaceFromCross_spec c2 NY image Hd2)
    as (c3 & -> & D3 & G3 & F3 & O3). simpl.
  assert (Hd3 : 3 * getDimensions c3 < 2 ^ 64) by by rewrite D3, D2, D1.
  destruct (setFaceFromCross_spec c3 PY image Hd3)
    as (c4 & -> & D4 & G4 & F4 & O4). simpl.
  assert (Hd4 : 3 * getDimensions c4 < 2 ^ 64) by by rewrite D4, D3, D2, D1.
  destruct (setFaceFromCross_spec c4 NZ image Hd4)
    as (c5 & -> & D5 & G5 & F5 & O5). simpl.
  assert (Hd5 : 3 * getDimensions c5 < 2 ^ 64)
    by by rewrite D5, D4, D3, D2, D1.
  destruct (setFaceFromCross_spec c5 PZ image Hd5)
    as (c6 & -> & D6 & G6 & F6 & O6). simpl.
  fold vertical in F1, F2, F3, F4, F5, F6.
  assert (E1 : getDimensions c1 = dim) by done.
  assert (E2 : getDimensions c2 = dim) by congruence.
  assert (E3 : getDimensions c3 = dim) by congruence.
  assert (E4 : getDimensions c4 = dim) by congruence.
  assert (E5 : getDimensions c5 = dim) by congruence.
  exists c6. split; [done|]. split; [congruence|].
  split; [by rewrite G6, G5, G4, G3, G2, G1|].
  intros [].
  - by rewrite O6, O5, O4, O3, O2, F1.
  - by rewrite O6, O5, O4, O3, F2, E1.
  - by rewrite O6, O5, O4, F3, E2.
  - by rewrite O6, O5, F4, E3.
  - by rewrite O6, F5, E4.
  - by rewrite F6, E5.
Qed.

(** X3: [setAllFacesFromCross] attaches all six faces, each the N x N
    window of the cross at its cell, keeps the dimension of the cubemap and
    sets the geometry from the shape of the cross; the texel [(x, y)] of a
    face is the texel of the cross at the cell's origin plus [(x, y)]. *)
Theorem setAllFacesFromCross_faces (cm : Cubemap) (image : Image) :
  3 * getDimensions cm < 2 ^ 64 →
  let dim := getDimensions cm in
  let vertical := getWidth image <? getHeight image in
  ∃ cm', setAllFacesFromCross cm image = Some cm' ∧
    getDimensions cm' = dim ∧
    getGeometry cm'
      = (if vertical then VERTICAL_CROSS else HORIZONTAL_CROSS) ∧
    ∀ f,
      getWidth (getImageForFace cm' f) = dim ∧
      getHeight (getImageForFace cm' f) = dim ∧
      getBytesPerRow (getImageForFace cm' f) = getBytesPerRow image ∧
      ∀ x y, getPixelRef (getImageForFace cm' f) x y
             = getPixelRef image ((crossCell vertical f).1 * dim + x)
                                 ((crossCell vertical f).2 * dim + y).
Proof.
  intros Hdim dim vertical.
  destruct (setAllFacesFromCross_spec cm image Hdim) as (cm' & H & D & G & F).
  exists cm'. split; [done|]. split; [done|]. split; [done|].
  intros f. rewrite F. repeat split. intros x y. apply getPixelRef_subset.
Qed.

Lemma setAllFacesFromCross_faces_witness :
  3 * getDimensions (newCubemap 4) < 2 ^ 64 ∧
  ∃ cm', setAllFacesFromCross (newCubemap 4) (mkImage 0 12 16 160 12)
           = Some cm' ∧
    getGeometry cm' = VERTICAL_CROSS ∧
    getPixelRef (getImageForFace cm' NZ) 0 0
    = getPixelRef (mkImage 0 12 16 160 12) 4 12.
Proof.
  split; [done|].
  destruct (setAllFacesFromCross_faces (newCubemap 4) (mkImage 0 12 16 160 12))
    as (cm' & H & _ & G & F); [done|].
  exists cm'. split; [exact H|]. split; [exact G|].
  destruct (F NZ) as (_ & _ & _ & Hp). exact (Hp 0 0).
Defined.

(** Distinct texels of an image of [float3] texels do not overlap. *)
Lemma pixels_apart (i : Image) (x y x' y' : N) :
  texels_apart i → x < getWidth i → x' < getWidth i →
  (x, y) ≠ (x', y') →
  getPixelRef i x y + sizeof_Texel ≤ getPixelRef i x' y' ∨
  getPixelRef i x' y' + sizeof_Texel ≤ getPixelRef i x y.
Proof.
  intros [Hbpp Hbpr] Hx Hx' Hne.
  unfold getPixelRef, sizeof_float, sizeof_Texel, getBytesPerPixel,
    getBytesPerRow, getWidth in *.
  destruct (N.lt_trichotomy y y') as [Hlt|[->|Hlt]].
  - left. assert (N.succ y * mBpr i ≤ y' * mBpr i)
      by (apply N.mul_le_mono_r; lia).
    assert (N.succ x * mBpp i ≤ mWidth i * mBpp i)
      by (apply N.mul_le_mono_r; lia).
    lia.
  - destruct (N.lt_trichotomy x x') as [Hlt|[->|Hlt]]; [left|done|right].
    + assert (N.succ x * mBpp i ≤ x' * mBpp i)
        by (apply N.mul_le_mono_r; lia). lia.
    + assert (N.succ x' * mBpp i ≤ x * mBpp i)
        by (apply N.mul_le_mono_r; lia). lia.
  - right. assert (N.succ y' * mBpr i ≤ y * mBpr i)
      by (apply N.mul_le_mono_r; lia).
    assert (N.succ x' * mBpp i ≤ mWidth i * mBpp i)
      by (apply N.mul_le_mono_r; lia).
    lia.
Qed.

(** The faces cut out of a cross of the right size form a cubemap in the
    memory that holds the cross. *)
Lemma cross_faces_ok (cm : Cubemap) (horizontal : bool) (dim data : N)
    (m : Mem) :
  getDimensions cm = dim →
  (∀ f, getImageForFace cm f
        = subset (crossImage horizontal dim data)
            ((crossCell (negb horizontal && (0 <? dim)) f).1 * dim)
            ((crossCell (negb horizontal && (0 <? dim)) f).2 * dim) dim dim) →
  data + crossStride (crossWidth horizontal dim)
         * (crossHeight horizontal dim + 1) ≤ msize m →
  cubemap_ok cm m.
Proof.
  intros Hdim Hf Hm.
  set (image := crossImage horizontal dim data) in *.
  set (v := negb horizontal && (0 <? dim)) in *.
  assert (Haddr : ∀ f x y, texel_addr cm (f, x, y)
            = getPixelRef image ((crossCell v f).1 * dim + x)
                                ((crossCell v f).2 * dim + y)).
  { intros f x y. unfold texel_addr. cbn [fst snd]. rewrite Hf.
    apply getPixelRef_subset. }
  assert (Hin : ∀ f x y, x < dim → y < dim →
            (crossCell v f).1 * dim + x < crossWidth horizontal dim ∧
            (crossCell v f).2 * dim + y < crossHeight horizontal dim).
  { intros f x y Hx Hy. unfold crossWidth, crossHeight. subst v.
    destruct horizontal; simpl.
    - destruct f; simpl; lia.
    - destruct (N.ltb_spec 0 dim); [|lia]. destruct f; simpl; lia. }
  assert (Hapart : texels_apart image).
  { destruct (crossStride_bounds (crossWidth horizontal dim)) as [[Hlo _] _].
    split; [done|]. unfold image, crossImage, getWidth, getBytesPerPixel,
      getBytesPerRow. cbn [mWidth mBpp mBpr]. unfold sizeof_Texel in *. lia. }
  split; [|split].
  - intros f. by rewrite Hf.
  - intros [[f x] y] [[f' x'] y'] [Hx Hy] [Hx' Hy'] Hne.
    cbn [fst snd] in Hx, Hy, Hx', Hy'. rewrite Hdim in Hx, Hy, Hx', Hy'.
    rewrite !Haddr.
    destruct (Hin f x y Hx Hy) as [HX _], (Hin f' x' y' Hx' Hy') as [HX' _].
    apply pixels_apart; [done..|].
    intros [= Ex Ey]. apply Hne.
    assert (f = f') as ->.
    { clear Hne HX HX'. destruct v, f, f'; simpl in Ex, Ey; try done; lia. }
    repeat f_equal; lia.
  - intros [[f x] y] [Hx Hy]. cbn [fst snd] in Hx, Hy. rewrite Hdim in Hx, Hy.
    rewrite Haddr. destruct (Hin f x y Hx Hy) as [HX HY].
    apply crossImage_allocated; [done|lia..].
Qed.

Lemma cross_is_vertical (horizontal : bool) (dim : N) :
  (crossWidth horizontal dim <? crossHeight horizontal dim)
  = negb horizontal && (0 <? dim).
Proof.
  unfold crossWidth, crossHeight. destruct horizontal; simpl.
  - apply N.ltb_ge. lia.
  - destruct (N.ltb_spec 0 dim); [apply N.ltb_lt|apply N.ltb_ge]; lia.
Qed.

Lemma create_spec (dim : N) (horizontal : bool) (m : Mem) :
  dim < 2 ^ 28 →
  let image := crossImage horizontal dim (msize m) in
  let m' := m ++ replicate
                   (N.to_nat (crossStride (crossWidth horizontal dim)
                              * (crossHeight horizontal dim + 1))) x00 in
  let vertical := negb horizontal && (0 <? dim) in
  ∃ cm, create dim horizontal m = Some (cm, image, m') ∧
    getDimensions cm = dim ∧
    getGeometry cm
      = (if vertical then VERTICAL_CROSS else HORIZONTAL_CROSS) ∧
    (∀ f, getImageForFace cm f
          = subset image ((crossCell vertical f).1 * dim)
                         ((crossCell vertical f).2 * dim) dim dim) ∧
    cubemap_ok cm m'.
Proof.
  intros Hdim image m' vertical. unfold create.
  rewrite (createCubemapImage_eq dim horizontal m Hdim). fold image m'.
  destruct (setAllFacesFromCross_spec (newCubemap dim) image)
    as (cm & Hcm & D & G & F).
  { change (getDimensions (newCubemap dim)) with dim.
    change (2 ^ 28) with 268435456 in Hdim.
    change (2 ^ 64) with 18446744073709551616. lia. }
  change (getDimensions (newCubemap dim)) with dim in *.
  change (getWidth image <? getHeight image)
    with (crossWidth horizontal dim <? crossHeight horizontal dim) in *.
  rewrite cross_is_vertical in G, F. fold vertical in G, F.
  rewrite Hcm. simpl. exists cm. split; [done|]. split; [done|].
  split; [done|]. split; [done|].
  apply (cross_faces_ok cm horizontal dim (msize m)); [done..|].
  unfold m'. rewrite msize_app, msize_replicate. lia.
Qed.

(** X4: for a dimension below 2^28 [create] succeeds: it allocates the
    zeroed cross after the memory in use and returns the cubemap whose faces
    are the cells of that cross, with the geometry asked for (a vertical
    cross of dimension 0 is tagged horizontal); the texels of the six
    faces lie in the new buffer and do not overlap. *)
Theorem create_cubemap_ok (dim : N) (horizontal : bool) (m : Mem) :
  dim < 2 ^ 28 →
  ∃ cm image m', create dim horizontal m = Some (cm, image, m') ∧
    (image, m') = createCubemapImage dim horizontal m ∧
    getDimensions cm = dim ∧
    getGeometry cm = (if negb horizontal && (0 <? dim)
                      then VERTICAL_CROSS else HORIZONTAL_CROSS) ∧
    (∀ f x y,
       getPixelRef (getImageForFace cm f) x y
       = getPixelRef image
           ((crossCell (negb horizontal && (0 <? dim)) f).1 * dim + x)
           ((crossCell (negb horizontal && (0 <? dim)) f).2 * dim + y)) ∧
    cubemap_ok cm m'.
Proof.
  intros Hdim.
  destruct (create_spec dim horizontal m Hdim) as (cm & H & D & G & F & Hok).
  eexists cm, _, _. split; [exact H|].
  split; [by rewrite (createCubemapImage_eq dim horizontal m Hdim)|].
  split; [done|]. split; [done|]. split; [|done].
  intros f x y. rewrite F. apply getPixelRef_subset.
Qed.

Lemma create_cubemap_ok_witness :
  2 < 2 ^ 28 ∧
  ∃ cm image m', create 2 false [] = Some (cm, image, m') ∧
    getGeometry cm = VERTICAL_CROSS ∧ cubemap_ok cm m'.
Proof.
  split; [done|].
  destruct (create_cubemap_ok 2 false []) as (cm & image & m' & H & _ & _ & G & _ & Hok);
    [done|].
  exists cm, image, m'. split; [exact H|]. split; [exact G|exact Hok].
Defined.

Lemma createCubemapImage_layout_witness :
  16 < 2 ^ 28 ∧
  getBytesPerRow (createCubemapImage 16 true []).1 = 800 ∧
  msize (createCubemapImage 16 true []).2 = 39200 ∧
  image_ok (createCubemapImage 16 true []).1 (createCubemapImage 16 true []).2.
Proof.
  split; [done|]. split; [done|]. split; [by vm_compute|].
  by destruct (createCubemapImage_layout 16 true [])
    as (_ & _ & _ & _ & _ & _ & _ & _ & Hok).
Defined.

(** ** More on generateUVGrid *)

(** The whole effect of [generateUVGrid] on the memory. *)
Lemma generateUVGrid_spec (cml : Cubemap) (gridFrequency : N) (m : Mem) :
  cubemap_ok cml m →
  0 < gridFrequency → gridFrequency ≤ getDimensions cml →
  ∃ m', generateUVGrid cml gridFrequency m = Some m' ∧
    length m' = length m ∧
    (∀ f x y, x < getDimensions cml → y < getDimensions cml →
       readAt (getPixelRef (getImageForFace cml f) x y) m'
       = Some (checkerboard (getDimensions cml) gridFrequency f x y)) ∧
    (∀ q n, away (texel_addr cml) sizeof_Texel (texel_of_cubemap cml) q n →
       load m' q n = load m q n).
Proof.
  intros (Hbpp & Hsep & Halloc) Hpos Hle.
  assert (Hgs : getDimensions cml / gridFrequency ≠ 0).
  { intros H0. apply N.div_small_iff in H0; lia. }
  destruct (uvGrid_updates cml _ Hbpp Hsep Hgs m Halloc)
    as (m' & Hm' & Hlen & Hin & Hout).
  exists m'. split; [|split; [done|split; [|done]]].
  - rewrite generateUVGrid_process by lia. exact Hm'.
  - intros f x y Hx Hy.
    specialize (Hin (f, x, y) (conj Hx Hy)).
    destruct (load_Some m _ _ (Halloc (f, x, y) (conj Hx Hy))) as (bs & Hbs).
    rewrite Hbs in Hin. simpl in Hin. unfold uvBytes in Hin. simpl in Hin.
    change (getPixelRef (getImageForFace cml f) x y)
      with (texel_addr cml (f, x, y)).
    rewrite (readAt_Texel_bytes _ _ _ Hin), uvTexel_stored.
    by rewrite uvTexel_checkerboard.
Qed.

(** X5: [generateUVGrid] keeps the size of the memory and every run of
    bytes that overlaps no texel of the six faces: padding, seams and other
    buffers are not written. *)
Theorem generateUVGrid_frame (cml : Cubemap) (gridFrequency : N) (m : Mem) :
  cubemap_ok cml m →
  0 < gridFrequency → gridFrequency ≤ getDimensions cml →
  ∃ m', generateUVGrid cml gridFrequency m = Some m' ∧
    length m' = length m ∧
    ∀ q n,
      (∀ f x y, x < getDimensions cml → y < getDimensions cml →
         q + n ≤ getPixelRef (getImageForFace cml f) x y ∨
         getPixelRef (getImageForFace cml f) x y + sizeof_Texel ≤ q) →
      load m' q n = load m q n.
Proof.
  intros Hok Hpos Hle.
  destruct (generateUVGrid_spec cml gridFrequency m Hok Hpos Hle)
    as (m' & H & Hlen & _ & Hout).
  exists m'. split; [done|]. split; [done|].
  intros q n Hq. apply Hout. intros [[f x] y] [Hx Hy]. by apply Hq.
Qed.

Lemma generateUVGrid_frame_witness :
  cubemap_ok uv_cubemap uv_mem ∧ 0 < 4 ∧ 4 ≤ getDimensions uv_cubemap ∧
  ∃ m', generateUVGrid uv_cubemap 4 uv_mem = Some m' ∧
    length m' = length uv_mem.
Proof.
  split; [exact uv_cubemap_ok|]. split; [done|]. split; [done|].
  destruct (generateUVGrid_frame uv_cubemap 4 uv_mem uv_cubemap_ok)
    as (m' & H & Hlen & _); [done..|].
  exists m'. split; [exact H|exact Hlen].
Defined.






Lemma for_range_None_first {S : Type} (n : N) (body : N → S → option S)
    (s : S) :
  0 < n → body 0 s = None → for_range n body s = None.
Proof.
  intros Hn H0.
  assert (Hk : ∀ k, for_range (N.succ k) body s = None).
  { intros k. induction k as [|k IH] using N.peano_ind.
    - by rewrite for_range_succ, for_range_0.
    - by rewrite for_range_succ, IH. }
  rewrite <- (N.succ_pred n) by lia. apply Hk.
Qed.

(** X7: [generateUVGrid] divides by zero, which is undefined, when the grid
    frequency is 0, and when it exceeds the dimension of a cubemap that has
    texels (the size of a cell is then 0). *)
Theorem generateUVGrid_division_by_zero (cml : Cubemap) (gridFrequency : N)
    (m : Mem) :
  gridFrequency = 0 ∨
  (0 < getDimensions cml ∧ getDimensions cml < gridFrequency) →
  generateUVGrid cml gridFrequency m = None.
Proof.
  intros [->|[Hdim Hgf]]; [done|].
  rewrite generateUVGrid_process by lia.
  rewrite (N.div_small _ _ Hgf). unfold process.
  apply for_range_None_first; [done|].
  apply for_range_None_first; [done|].
  unfold uvRow. by rewrite for_range_None_first.
Qed.

Lemma generateUVGrid_division_by_zero_witness :
  (17 = 0 ∨ (0 < getDimensions uv_cubemap ∧ getDimensions uv_cubemap < 17)) ∧
  generateUVGrid uv_cubemap 17 uv_mem = None.
Proof.
  assert (H : 17 = 0 ∨
              (0 < getDimensions uv_cubemap ∧ getDimensions uv_cubemap < 17))
    by (right; done).
  split; [exact H|]. exact (generateUVGrid_division_by_zero _ _ _ H).
Defined.

Lemma odd_lxor (a b : N) : N.odd (N.lxor a b) = xorb (N.odd a) (N.odd b).
Proof. by rewrite <- !N.bit0_odd, N.lxor_spec. Qed.

Lemma odd_add_1 (a : N) : N.odd (a + 1) = negb (N.odd a).
Proof. by rewrite N.add_1_r, N.odd_succ, <- N.negb_odd. Qed.

(** X8: the parity [generateUVGrid] computes is a checkerboard of cells of
    [gridSize] texels: it is the same for two texels of one cell, flips
    from a cell to the next one along [x] and along [y], and is symmetric
    in [x] and [y]. *)
Theorem gridParity_checkerboard (gridSize x y : N) :
  gridSize ≠ 0 →
  (∀ x' y', x' / gridSize = x / gridSize → y' / gridSize = y / gridSize →
     gridParity gridSize x' y' = gridParity gridSize x y) ∧
  gridParity gridSize (x + gridSize) y = negb (gridParity gridSize x y) ∧
  gridParity gridSize x (y + gridSize) = negb (gridParity gridSize x y) ∧
  gridParity gridSize y x = gridParity gridSize x y ∧
  (x < gridSize → y < gridSize → gridParity gridSize x y = false).
Proof.
  intros Hg. rewrite !gridParity_odd.
  assert (Hstep : ∀ a, (a + gridSize) / gridSize = a / gridSize + 1).
  { intros a. rewrite <- (N.mul_1_l gridSize) at 1. by rewrite N.div_add. }
  split; [|split; [|split; [|split]]].
  - intros x' y' Hx Hy. by rewrite !gridParity_odd, Hx, Hy.
  - rewrite Hstep, !odd_lxor, odd_add_1. by destruct (N.odd _), (N.odd _).
  - rewrite Hstep, !odd_lxor, odd_add_1. by destruct (N.odd _), (N.odd _).
  - by rewrite N.lxor_comm.
  - intros Hx Hy. by rewrite !N.div_small.
Qed.

Lemma gridParity_checkerboard_witness :
  4 ≠ 0 ∧ gridParity 4 (0 + 4) 0 = negb (gridParity 4 0 0).
Proof.
  split; [done|].
  by destruct (gridParity_checkerboard 4 0 0) as (_ & H & _).
Defined.

(** ** More on clamp *)

(** X9: [clamp] keeps the size of the memory and writes nothing outside of
    the channels of the image (row padding is not touched).  It changes a
    channel only when its value is above 256, and then stores the object
    representation of [256.0f]; a NaN, a negative value and minus infinity
    stay as they are, bit for bit. *)
Theorem clamp_writes_only_large_channels (src : Image) (m : Mem) :
  image_ok src m →
  ∃ m', clamp src m = Some m' ∧ length m' = length m ∧
    (∀ x y k, x < getWidth src → y < getHeight src → k < 3 →
       ∃ bs,
         load m (getPixelRef src x y + k * sizeof_float) sizeof_float
           = Some bs ∧
         load m' (getPixelRef src x y + k * sizeof_float) sizeof_float
           = Some (if f32_lt f256 (f32_of_bytes bs) then f256_bytes else bs) ∧
         (f32_of_bytes bs = S754_nan →
          channel src m' x y k = Some S754_nan)) ∧
    (∀ q n,
       (∀ x y k, x < getWidth src → y < getHeight src → k < 3 →
          q + n ≤ getPixelRef src x y + k * sizeof_float ∨
          getPixelRef src x y + k * sizeof_float + sizeof_float ≤ q) →
       load m' q n = load m q n).
Proof.
  intros [Hapart Halloc].
  destruct (clamp_updates src Hapart m (channels_allocated _ _ Halloc))
    as (m' & Hm' & Hlen & Hin & Hout).
  exists m'. split; [done|]. split; [done|]. split.
  - intros x y k Hx Hy Hk.
    destruct (load_Some m (getPixelRef src x y + k * sizeof_float) sizeof_float)
      as (bs & Hbs).
    { by apply (channels_allocated _ _ Halloc (x, y, k)). }
    exists bs. split; [done|].
    specialize (Hin (x, y, k)). unfold channel_addr in Hin. simpl in Hin.
    assert (Hnew : load m' (getPixelRef src x y + k * sizeof_float) sizeof_float
                   = Some (if f32_lt f256 (f32_of_bytes bs)
                           then f256_bytes else bs)).
    { rewrite Hin, Hbs by done. done. }
    split; [done|]. intros Hnan. unfold channel. rewrite Hnew, Hnan.
    change (f32_lt f256 S754_nan) with false.
    cbn [fmap option_fmap option_map]. by rewrite Hnan.
  - intros q n Hq. apply Hout. intros [[x y] k] (Hx & Hy & Hk).
    by apply Hq.
Qed.

Lemma clamp_writes_only_large_channels_witness :
  image_ok scenario_image scenario_mem ∧
  ∃ m', clamp scenario_image scenario_mem = Some m' ∧
    length m' = length scenario_mem ∧
    load m' 36 28 = load scenario_mem 36 28.
Proof.
  split; [exact scenario_image_ok|].
  destruct (clamp_writes_only_large_channels scenario_image scenario_mem
              scenario_image_ok) as (m' & H & Hlen & _ & Hout).
  exists m'. split; [exact H|]. split; [exact Hlen|].
  apply Hout. intros x y k Hx Hy Hk.
  unfold getPixelRef, scenario_image, getWidth, getHeight, sizeof_float in *.
  cbn [mData mBpr mBpp mWidth mHeight] in *. lia.
Defined.

(** ** copyImage between two crosses *)

Lemma copyImage_copies_rows_witness :
  copy_ok (mkImage 256 4 3 64 12) (mkImage 0 4 3 64 12) (replicate 512 x00) ∧
  ∃ m', copyImage (mkImage 256 4 3 64 12) (mkImage 0 4 3 64 12)
          (replicate 512 x00) = Some m' ∧
    length m' = 512%nat.
Proof.
  assert (Hok : copy_ok (mkImage 256 4 3 64 12) (mkImage 0 4 3 64 12)
                  (replicate 512 x00)).
  { unfold copy_ok, copy_src_row, copy_dst_row, getPixelRef, getWidth,
      getHeight, getBytesPerRow. cbn [mData mWidth mHeight mBpr mBpp].
    change (msize (replicate 512 x00)) with 512.
    split; [done|]. split; [done|]. split; [done|].
    split; intros; lia. }
  split; [exact Hok|].
  destruct (copyImage_copies_rows _ _ _ Hok) as (m' & H & Hlen & _).
  exists m'. split; [exact H|exact Hlen].
Defined.

Lemma crosses_copy_ok (horizontal : bool) (dim a b : N) (m : Mem) :
  a + crossStride (crossWidth horizontal dim)
      * (crossHeight horizontal dim + 1) ≤ b →
  b + crossStride (crossWidth horizontal dim)
      * (crossHeight horizontal dim + 1) ≤ msize m →
  copy_ok (crossImage horizontal dim b) (crossImage horizontal dim a) m.
Proof.
  intros Hab Hbm.
  set (W := crossWidth horizontal dim) in *.
  set (H := crossHeight horizontal dim) in *.
  set (S := crossStride W) in *.
  assert (Hrow : ∀ y, y < H → y * S + S ≤ S * (H + 1)).
  { intros y Hy. assert (N.succ y * S ≤ H * S)
      by (apply N.mul_le_mono_r; lia). lia. }
  unfold copy_ok, copy_src_row, copy_dst_row, getPixelRef, crossImage,
    getWidth, getHeight, getBytesPerRow. cbn [mData mWidth mHeight mBpr mBpp].
  fold W H S.
  split; [done|]. split; [done|]. split; [done|]. split.
  - intros y Hy. pose proof (Hrow y Hy). lia.
  - intros y y' Hy Hy'. right. pose proof (Hrow y' Hy'). lia.
Qed.

(** X10: a copy between two crosses as [createCubemapImage] allocates them
    for the same dimension, the source first: whatever the memory holds, the
    copy succeeds; every texel of the rows of the source, the texel of the
    seam column included, is then found in the destination; the seam row
    of the destination (the row after the last one) is not copied and
    keeps its content, and the source is unchanged. *)
Theorem copyImage_between_crosses (dim : N) (horizontal : bool) (m0 m : Mem) :
  dim < 2 ^ 28 →
  let src := (createCubemapImage dim horizontal m0).1 in
  let m1 := (createCubemapImage dim horizontal m0).2 in
  let dst := (createCubemapImage dim horizontal m1).1 in
  let m2 := (createCubemapImage dim horizontal m1).2 in
  length m = length m2 →
  ∃ m', copyImage dst src m = Some m' ∧
    (∀ x y, x ≤ getWidth src → y < getHeight src →
       load m' (getPixelRef dst x y) sizeof_Texel
       = load m (getPixelRef src x y) sizeof_Texel ∧
       load m' (getPixelRef src x y) sizeof_Texel
       = load m (getPixelRef src x y) sizeof_Texel) ∧
    (∀ x, x ≤ getWidth src →
       load m' (getPixelRef dst x (getHeight src)) sizeof_Texel
       = load m (getPixelRef dst x (getHeight src)) sizeof_Texel).
Proof.
  intros Hdim. cbv zeta. rewrite !createCubemapImage_eq by done.
  cbn [fst snd]. rewrite !length_app, !length_replicate.
  set (W := crossWidth horizontal dim). set (H := crossHeight horizontal dim).
  set (S := crossStride W). set (a := msize m0).
  rewrite msize_app, msize_replicate. fold a.
  intros Hlen.
  assert (Hm : msize m = a + S * (H + 1) + S * (H + 1))
    by (unfold msize, a; unfold msize; lia).
  assert (Hok : copy_ok (crossImage horizontal dim (a + S * (H + 1)))
                  (crossImage horizontal dim a) m).
  { apply crosses_copy_ok; fold W H S; lia. }
  destruct (copyImage_spec _ _ _ Hok) as (m' & Hm' & Hlen' & Hrows & Hframe).
  destruct (crossStride_bounds W) as [[Hlo _] _]. fold S in Hlo.
  assert (Hrow : ∀ y, y < H → y * S + S ≤ S * (H + 1)).
  { intros y Hy. assert (N.succ y * S ≤ H * S)
      by (apply N.mul_le_mono_r; lia). lia. }
  exists m'. split; [done|].
  change (getWidth (crossImage horizontal dim a)) with W.
  change (getHeight (crossImage horizontal dim a)) with H. split.
  - intros x y Hx Hy.
    assert (Hfit : x * sizeof_Texel + sizeof_Texel ≤ S).
    { assert (N.succ x * sizeof_Texel ≤ (W + 1) * sizeof_Texel)
        by (apply N.mul_le_mono_r; lia). lia. }
    assert (Es : ∀ d, getPixelRef (crossImage horizontal dim d) x y
                      = copy_src_row (crossImage horizontal dim d) y
                        + x * sizeof_Texel).
    { intros d. unfold copy_src_row, getPixelRef, crossImage.
      cbn [mData mBpr mBpp]. lia. }
    split.
    + specialize (Hrows y Hy).
      change (getBytesPerRow (crossImage horizontal dim a)) with S in Hrows.
      destruct (load_Some m (copy_src_row (crossImage horizontal dim a) y) S)
        as (bs & Hbs).
      { pose proof (Hrow y Hy). unfold copy_src_row, getPixelRef, crossImage.
        cbn [mData mBpr mBpp]. fold W S. lia. }
      rewrite Hbs in Hrows.
      rewrite (Es a), (Es (a + S * (H + 1))).
      change (copy_src_row (crossImage horizontal dim (a + S * (H + 1))) y)
        with (copy_dst_row (crossImage horizontal dim (a + S * (H + 1))) y).
      by rewrite (load_sub _ _ _ _ _ _ Hrows Hfit),
        (load_sub _ _ _ _ _ _ Hbs Hfit).
    + apply Hframe. intros y' Hy'. left. pose proof (Hrow y Hy).
      pose proof (N.le_0_l (y' * S)).
      unfold copy_dst_row, getPixelRef, crossImage. cbn [mData mBpr mBpp].
      fold W S. unfold sizeof_Texel in *. lia.
  - intros x Hx. apply Hframe. intros y' Hy'. right.
    change (y' < H) in Hy'.
    assert (N.succ y' * S ≤ H * S) by (apply N.mul_le_mono_r; lia).
    unfold copy_dst_row, getPixelRef, crossImage, getBytesPerRow.
    cbn [mData mBpr mBpp]. fold W S. lia.
Qed.

Lemma copyImage_between_crosses_witness :
  1 < 2 ^ 28 ∧
  length (replicate 512 x01)
  = length (createCubemapImage 1 true
              (createCubemapImage 1 true []).2).2 ∧
  ∃ m', copyImage
          (createCubemapImage 1 true (createCubemapImage 1 true []).2).1
          (createCubemapImage 1 true []).1 (replicate 512 x01) = Some m'.
Proof.
  split; [done|]. split; [done|].
  destruct (copyImage_between_crosses 1 true [] (replicate 512 x01))
    as (m' & H & _); [done..|].
  exists m'. exact H.
Defined.


(** ** The names of the faces *)

(** X15: two different faces never have the same name, and every name is
    two characters long. *)
Theorem getFaceName_injective (f g : Face) :
  (getFaceName f = getFaceName g ↔ f = g) ∧
  String.length (getFaceName f) = 2%nat.
Proof.
  split; [|by destruct f]. split; [|by intros ->].
  by destruct f, g; intros H; try discriminate H.
Qed.

(** ** Rounding to binary32

    What [binary_round_aux] returns for a positive mantissa of at least 24
    digits, away from underflow and overflow: the mantissa is cut to 24
    digits and rounded to one of the two neighbours. *)

Section Binary32Rounding.

Local Open Scope Z_scope.

Lemma digits2_pos_bounds (p : positive) :
  2 ^ (Zpos (digits2_pos p) - 1) ≤ Zpos p < 2 ^ Zpos (digits2_pos p).
Proof.
  induction p as [p IH|p IH|]; cbn [digits2_pos].
  - rewrite Pos2Z.inj_succ, Z.pow_succ_r by lia.
    replace (Z.succ (Zpos (digits2_pos p)) - 1)
      with (Z.succ (Zpos (digits2_pos p) - 1)) by lia.
    rewrite Z.pow_succ_r by lia. lia.
  - rewrite Pos2Z.inj_succ, Z.pow_succ_r by lia.
    replace (Z.succ (Zpos (digits2_pos p)) - 1)
      with (Z.succ (Zpos (digits2_pos p) - 1)) by lia.
    rewrite Z.pow_succ_r by lia. lia.
  - done.
Qed.

Lemma digits2_pos_unique (p : positive) (k : Z) :
  2 ^ (k - 1) ≤ Zpos p < 2 ^ k → Zpos (digits2_pos p) = k.
Proof.
  intros [Hlo Hhi]. pose proof (digits2_pos_bounds p) as [Hl Hh].
  set (d := Zpos (digits2_pos p)) in *.
  assert (0 < d) by done.
  assert (0 < k).
  { destruct (Z.lt_ge_cases 0 k) as [|Hk]; [done|].
    assert (2 ^ k ≤ 2 ^ 0) by (destruct (Z.eq_dec k 0) as [->|]; [done|];
      rewrite Z.pow_neg_r by lia; done). lia. }
  destruct (Z.lt_trichotomy d k) as [Hdk|[Hdk|Hdk]]; [|done|].
  - assert (2 ^ d ≤ 2 ^ (k - 1)) by (apply Z.pow_le_mono_r; lia). lia.
  - assert (2 ^ k ≤ 2 ^ (d - 1)) by (apply Z.pow_le_mono_r; lia). lia.
Qed.

Lemma shr_1_m (mrs : shr_record) :
  0 ≤ shr_m mrs → shr_m (shr_1 mrs) = shr_m mrs / 2.
Proof.
  destruct mrs as [m r s]. cbn [shr_m]. intros Hm.
  destruct m as [|[p|p|]|p]; cbn [shr_1 shr_m]; [done| | |done|lia].
  - rewrite Pos2Z.inj_xI. apply (Z.div_unique _ _ _ 1); lia.
  - rewrite Pos2Z.inj_xO. apply (Z.div_unique _ _ _ 0); lia.
Qed.

Lemma shr_m_iter (p : positive) (mrs : shr_record) :
  0 ≤ shr_m mrs →
  shr_m (SpecFloat.iter_pos shr_1 p mrs) = shr_m mrs / 2 ^ Zpos p.
Proof.
  assert (Hnn : ∀ mrs, 0 ≤ shr_m mrs → 0 ≤ shr_m (shr_1 mrs)).
  { intros r Hr. rewrite shr_1_m by done. apply Z.div_pos; lia. }
  revert mrs.
  induction p as [p IH|p IH|]; intros mrs Hm; cbn [SpecFloat.iter_pos].
  - assert (0 ≤ shr_m (SpecFloat.iter_pos shr_1 p (shr_1 mrs))).
    { rewrite IH by auto. apply Z.div_pos; [auto|lia]. }
    rewrite IH, IH, shr_1_m by auto.
    rewrite !Z.div_div by lia. f_equal.
    assert (E : 2 ^ Zpos p~1 = 2 * 2 ^ Zpos p * 2 ^ Zpos p).
    { rewrite Pos2Z.inj_xI.
      replace (2 * Zpos p + 1) with (1 + Zpos p + Zpos p) by lia.
      by rewrite !Z.pow_add_r by lia. }
    rewrite E. lia.
  - assert (0 ≤ shr_m (SpecFloat.iter_pos shr_1 p mrs)).
    { rewrite IH by auto. apply Z.div_pos; [auto|lia]. }
    rewrite IH, IH by auto. rewrite Z.div_div by lia. f_equal.
    assert (E : 2 ^ Zpos p~0 = 2 ^ Zpos p * 2 ^ Zpos p).
    { replace (Zpos p~0) with (Zpos p + Zpos p) by lia.
      by rewrite Z.pow_add_r by lia. }
    by rewrite E.
  - by rewrite shr_1_m.
Qed.

Lemma shr_record_of_loc_m (m : Z) (l : location) :
  shr_m (shr_record_of_loc m l) = m.
Proof. by destruct l as [|[]]. Qed.

Lemma shr_fexp_32 (m e d : Z) (l : location) :
  0 < m → Zdigits2 m = d → 24 ≤ d → -149 ≤ e + (d - 24) →
  ∃ mrs, shr_fexp prec32 emax32 m e l = (mrs, e + (d - 24)) ∧
         shr_m mrs = m / 2 ^ (d - 24).
Proof.
  intros Hm Hd H24 He. unfold shr_fexp. rewrite Hd.
  replace (fexp prec32 emax32 (d + e) - e) with (d - 24)
    by (unfold fexp, emin, prec32, emax32; lia).
  unfold shr. destruct (d - 24) as [|q|q] eqn:Hn; [| |lia].
  - eexists. split; [by rewrite Z.add_0_r|].
    by rewrite shr_record_of_loc_m, Z.div_1_r.
  - eexists. split; [done|].
    rewrite shr_m_iter; rewrite shr_record_of_loc_m; [done|lia].
Qed.

Lemma round_nearest_even_cases (m : Z) (l : location) :
  round_nearest_even m l = m ∨ round_nearest_even m l = m + 1.
Proof.
  destruct l as [|[]]; cbn [round_nearest_even]; auto.
  destruct (Z.even m); auto.
Qed.

Lemma binary_round_aux_32 (p : positive) (e : Z) (l : location) :
  let n := Zpos (digits2_pos p) - 24 in
  0 ≤ n → -149 ≤ e + n → e + n + 1 ≤ 104 →
  ∃ m' e' k,
    binary_round_aux prec32 emax32 false (Zpos p) e l
    = S754_finite false m' e' ∧
    2 ^ 23 ≤ Zpos m' < 2 ^ 24 ∧
    (k = Zpos p / 2 ^ n ∨ k = Zpos p / 2 ^ n + 1) ∧
    ((e' = e + n ∧ Zpos m' = k) ∨ (e' = e + n + 1 ∧ 2 * Zpos m' = k)).
Proof.
  intros n Hn Hlo Hhi. pose proof (digits2_pos_bounds p) as [Hdl Hdh].
  set (d := Zpos (digits2_pos p)) in *.
  destruct (shr_fexp_32 (Zpos p) e d l) as (mrs & E1 & Hm1);
    [done|done|lia|done|].
  fold n in E1, Hm1. set (m1 := Zpos p / 2 ^ n) in *.
  assert (Hp : 0 < 2 ^ n) by (apply Z.pow_pos_nonneg; lia).
  assert (Hm1b : 2 ^ 23 ≤ m1 < 2 ^ 24).
  { replace (d - 1) with (23 + n) in Hdl by lia.
    replace d with (24 + n) in Hdh by lia.
    rewrite Z.pow_add_r in Hdl, Hdh by lia. split.
    - apply Z.div_le_lower_bound; lia.
    - apply Z.div_lt_upper_bound; lia. }
  unfold binary_round_aux. rewrite E1.
  set (m1' := round_nearest_even (shr_m mrs) (loc_of_shr_record mrs)).
  assert (Hm1' : m1' = m1 ∨ m1' = m1 + 1)
    by (unfold m1'; rewrite Hm1; apply round_nearest_even_cases).
  destruct (Z.lt_ge_cases m1' (2 ^ 24)) as [Hlt|Hge].
  - destruct m1' as [|q|q] eqn:Eq; [lia| |lia].
    destruct (shr_fexp_32 (Zpos q) (e + n) 24 loc_Exact)
      as (mrs2 & E2 & Hm2); [done| |done|lia|].
    { apply digits2_pos_unique. lia. }
    rewrite E2. change (24 - 24) with 0 in *. rewrite Z.div_1_r in Hm2.
    rewrite Hm2. rewrite Z.add_0_r.
    replace (e + n <=? emax32 - prec32) with true
      by (symmetry; apply Z.leb_le; unfold emax32, prec32; lia).
    exists q, (e + n), (Zpos q). split; [done|]. split; [lia|].
    split; [done|]. by left.
  - assert (Em : m1' = 2 ^ 24) by lia.
    destruct (shr_fexp_32 m1' (e + n) 25 loc_Exact) as (mrs2 & E2 & Hm2);
      [lia| |done|lia|].
    { rewrite Em. done. }
    rewrite E2. rewrite Em in Hm2.
    change (2 ^ 24 / 2 ^ (25 - 24)) with (2 ^ 23) in Hm2.
    rewrite Hm2. change (2 ^ 23) with (Zpos 8388608).
    cbv iota beta.
    replace (e + n + (25 - 24) <=? emax32 - prec32) with true
      by (symmetry; apply Z.leb_le; unfold emax32, prec32; lia).
    exists 8388608%positive, (e + n + 1), (2 ^ 24). split; [done|].
    split; [done|]. split; [right; lia|]. right. done.
Qed.

Lemma Pos_iter_xO (p q : positive) :
  Zpos (Pos.iter xO p q) = Zpos p * 2 ^ Zpos q.
Proof.
  induction q as [|q IH] using Pos.peano_ind.
  - cbn [Pos.iter]. lia.
  - rewrite Pos.iter_succ, Pos2Z.inj_xO, IH, Pos2Z.inj_succ, Z.pow_succ_r
      by lia.
    lia.
Qed.


End Binary32Rounding.

(** ** The sample count of equirectangularToCubemap *)

Module IdealProps.
Import Ideal.
Local Open Scope R_scope.

Lemma std_max_ge_l (a b : R) : a <= std_max a b.
Proof. unfold std_max. destruct (Rlt_dec a b); lra. Qed.

Lemma std_max_Rmax (a b : R) : std_max a b = Rmax a b.
Proof. unfold std_max, Rmax. destruct (Rlt_dec a b), (Rle_dec a b); lra. Qed.

Lemma std_min_Rmin (a b : R) : std_min a b = Rmin a b.
Proof. unfold std_min, Rmin. destruct (Rlt_dec b a), (Rle_dec a b); lra. Qed.

Lemma Int_part_ge_1 (r : R) : 1 <= r → (1 ≤ Int_part r)%Z.
Proof.
  intros H. destruct (base_Int_part r) as [_ Hlo].
  assert (0 < IZR (Int_part r)) as Hpos by lra.
  apply lt_IZR in Hpos. lia.
Qed.

Lemma to_size_t_ge_1 (r : R) : 1 <= r → (1 ≤ to_size_t r)%N.
Proof. intros H. apply Int_part_ge_1 in H. unfold to_size_t. lia. Qed.

Lemma samplesOfBox_ge_1 (pos0 pos1 pos2 pos3 : double2) :
  (1 ≤ samplesOfBox pos0 pos1 pos2 pos3)%N.
Proof.
  unfold samplesOfBox. apply to_size_t_ge_1.
  set (dx := std_max 1 _). set (dy := std_max 1 _).
  assert (1 <= dx) by apply std_max_ge_l.
  assert (1 <= dy) by apply std_max_ge_l.
  nra.
Qed.

(** Case analysis on the comparisons of [Rmax] and [Rmin], innermost
    first. *)
Ltac case_Rle :=
  repeat match goal with
         | |- context [Rle_dec ?u ?v] =>
             lazymatch u with
             | context [Rle_dec] => fail
             | _ => lazymatch v with
                    | context [Rle_dec] => fail
                    | _ => destruct (Rle_dec u v); try lra
                    end
             end
         end.

Lemma Rmax_assoc4 (a b c d : R) :
  Rmax b (Rmax c (Rmax d a)) = Rmax a (Rmax b (Rmax c d)).
Proof. unfold Rmax. case_Rle. Qed.

Lemma Rmin_assoc4 (a b c d : R) :
  Rmin b (Rmin c (Rmin d a)) = Rmin a (Rmin b (Rmin c d)).
Proof. unfold Rmin. case_Rle. Qed.

(** The count of the source is the truncated product of the clamped
    extents of the bounding box. *)
Lemma samplesOfBox_truncated (pos0 pos1 pos2 pos3 : double2) :
  Z.of_N (samplesOfBox pos0 pos1 pos2 pos3)
  = truncatedSampleCount [pos0; pos1; pos2; pos3].
Proof.
  unfold samplesOfBox, truncatedSampleCount, boundingBoxWidth,
    boundingBoxHeight, extent, to_size_t. simpl.
  rewrite !std_max_Rmax, !std_min_Rmin.
  rewrite (Rmax_assoc4 pos0.1), (Rmax_assoc4 pos0.2),
    (Rmin_assoc4 pos0.1), (Rmin_assoc4 pos0.2).
  rewrite Z2N.id; [done|].
  assert (1 ≤ Int_part (Rmax 1 (Rmax pos0.1 (Rmax pos1.1 (Rmax pos2.1 pos3.1))
                                 - Rmin pos0.1 (Rmin pos1.1 (Rmin pos2.1 pos3.1)))
                        * Rmax 1 (Rmax pos0.2 (Rmax pos1.2 (Rmax pos2.2 pos3.2))
                                 - Rmin pos0.2 (Rmin pos1.2 (Rmin pos2.2 pos3.2)))))%Z;
    [|lia].
  apply Int_part_ge_1.
  set (dx := Rmax 1 _). set (dy := Rmax 1 _).
  assert (1 <= dx) by apply Rmax_l.
  assert (1 <= dy) by apply Rmax_l.
  nra.
Qed.

Section Texels.

Variable getDirectionFor : Face → double → double → double3.
Variables width height : N.

(** C8: the sample count of every destination texel is at least 1, so
    [1.0f / numSamples] divides by a non-zero number. *)
Theorem numSamples_never_zero (f : Face) (x y : N) :
  (1 ≤ numSamples getDirectionFor width height f x y)%N ∧
  of_size_t (numSamples getDirectionFor width height f x y) ≠ 0.
Proof.
  assert (H : (1 ≤ numSamples getDirectionFor width height f x y)%N)
    by apply samplesOfBox_ge_1.
  assert (Hr : 1 <= of_size_t (numSamples getDirectionFor width height f x y)).
  { unfold of_size_t. apply IZR_le. lia. }
  split; [done|]. lra.
Qed.

Lemma numSamples_truncated (f : Face) (x y : N) :
  Z.of_N (numSamples getDirectionFor width height f x y)
  = truncatedSampleCount (corners getDirectionFor width height f x y).
Proof.
  unfold numSamples, corners. rewrite !Rplus_0_r.
  apply samplesOfBox_truncated.
Qed.

(** C1, as the source has it: the sample count of a texel is the integer
    part of the product of the extents of the bounding box of its four
    projected corners, each extent raised to 1 when it is below; it is at
    least 1. *)
Theorem numSamples_truncated_product (f : Face) (x y : N) :
  Z.of_N (numSamples getDirectionFor width height f x y)
  = truncatedSampleCount (corners getDirectionFor width height f x y) ∧
  (1 ≤ numSamples getDirectionFor width height f x y)%N.
Proof. split; [apply numSamples_truncated|apply samplesOfBox_ge_1]. Qed.

End Texels.

(** *** A texel whose count is not the product of the ceilings

    The face PZ of a cubemap of dimension 1 is one texel; its corners are
    the directions (+-1, +-1, 1) / sqrt 3.  On a source of 4 by 5 pixels
    its bounding box is 3/4 of a pixel wide and [4 * theta] high, with
    [theta] the latitude of the corners as a fraction of a right angle. *)

Lemma sqrt_3_pos : 0 < sqrt 3.
Proof. apply sqrt_lt_R0. lra. Qed.

Lemma atan_inv_sqrt_3 : atan (1 / sqrt 3) = PI / 6.
Proof.
  rewrite <- tan_PI6. apply atan_tan. pose proof PI_RGT_0. lra.
Qed.

Definition theta : R := asin (1 / sqrt 3) * (2 * M_1_PI).

Lemma asin_inv_sqrt_3_bounds : PI / 6 < asin (1 / sqrt 3) < PI / 4.
Proof.
  pose proof sqrt_3_pos as H3.
  assert (Hsq : sqrt 3 * sqrt 3 = 3) by (apply sqrt_sqrt; lra).
  set (k := 1 / sqrt 3).
  assert (Hk : 0 < k) by (unfold k; apply Rdiv_lt_0_compat; lra).
  assert (Hkk : k * k = 1 / 3).
  { unfold k. replace (1 / sqrt 3 * (1 / sqrt 3)) with (1 / (sqrt 3 * sqrt 3))
      by (field; lra). by rewrite Hsq. }
  assert (Hk1 : k < 1) by nra.
  rewrite asin_atan by lra.
  set (q := sqrt (1 - k²)).
  assert (Hq : 0 < q) by (unfold q, Rsqr; apply sqrt_lt_R0; lra).
  assert (Hqq : q * q = 2 / 3).
  { unfold q. rewrite sqrt_sqrt; unfold Rsqr; lra. }
  assert (Hq1 : q < 1) by nra.
  assert (Hr : k < k / q < 1).
  { split.
    - apply (Rmult_lt_reg_r q); [done|]. unfold Rdiv.
      rewrite Rmult_assoc, Rinv_l by lra. nra.
    - apply (Rmult_lt_reg_r q); [done|]. unfold Rdiv.
      rewrite Rmult_assoc, Rinv_l by lra. nra. }
  split.
  - rewrite <- atan_inv_sqrt_3. apply atan_increasing. apply Hr.
  - rewrite <- atan_1. apply atan_increasing. apply Hr.
Qed.

Lemma theta_bounds : 1 / 4 < theta < 1 / 2.
Proof.
  pose proof asin_inv_sqrt_3_bounds as [Hlo Hhi]. pose proof PI_RGT_0 as Hpi.
  assert (H : theta * PI = 2 * asin (1 / sqrt 3)).
  { unfold theta, M_1_PI. field. lra. }
  split; apply (Rmult_lt_reg_r PI); lra.
Qed.

(** The projection of the corner [(cx, cy, 1) / sqrt 3]. *)
Lemma toRectilinear_corner (cx cy : R) :
  toRectilinear 4 5 (cx * (1 / sqrt 3), cy * (1 / sqrt 3), 1 * (1 / sqrt 3))
  = ((atan cx * M_1_PI + 1) * 0.5 * 3,
     (1 - asin (cy * (1 / sqrt 3)) * (2 * M_1_PI)) * 0.5 * 4).
Proof.
  pose proof sqrt_3_pos as H3.
  unfold toRectilinear, atan2.
  change (of_size_t (wrap (4 + (2 ^ 64 - 1)))) with (IZR 3).
  change (of_size_t (wrap (5 + (2 ^ 64 - 1)))) with (IZR 4).
  destruct (Rlt_dec 0 (1 * (1 / sqrt 3))) as [_|Hn].
  - replace (cx * (1 / sqrt 3) / (1 * (1 / sqrt 3))) with cx by (field; lra).
    done.
  - destruct Hn. apply Rmult_lt_0_compat; [lra|]. apply Rdiv_lt_0_compat; lra.
Qed.

Lemma PZ_corners :
  corners (Cubemap_getDirectionFor 1) 4 5 PZ 0 0
  = [ (9 / 8, 2 - 2 * theta); (15 / 8, 2 - 2 * theta);
      (9 / 8, 2 + 2 * theta); (15 / 8, 2 + 2 * theta) ].
Proof.
  pose proof PI_RGT_0 as Hpi.
  assert (Hl : ∀ x y, (x = 0 ∨ x = 1) → (y = 0 ∨ y = 1) →
            Cubemap_getDirectionFor 1 PZ x y
            = ((2 * x - 1) * (1 / sqrt 3), (1 - 2 * y) * (1 / sqrt 3),
               1 * (1 / sqrt 3))).
  { intros x y Hx Hy. unfold Cubemap_getDirectionFor.
    change (of_size_t 1) with (IZR 1).
    replace (x * (2 / 1) - 1) with (2 * x - 1) by lra.
    replace (1 - y * (2 / 1)) with (1 - 2 * y) by lra.
    replace ((2 * x - 1) * (2 * x - 1) + (1 - 2 * y) * (1 - 2 * y) + 1)
      with 3 by (destruct Hx as [-> | ->], Hy as [-> | ->]; lra).
    done. }
  assert (Hp : atan 1 * M_1_PI = 1 / 4)
    by (rewrite atan_1; unfold M_1_PI; field; lra).
  assert (Hn : atan (-1) * M_1_PI = - (1 / 4))
    by (replace (atan (-1)) with (- atan 1)
          by (rewrite <- atan_opp; f_equal; lra);
        rewrite atan_1; unfold M_1_PI; field; lra).
  assert (Ha : asin (-1 * (1 / sqrt 3)) * (2 * M_1_PI) = - theta).
  { replace (-1 * (1 / sqrt 3)) with (- (1 / sqrt 3)) by lra.
    rewrite asin_opp. unfold theta. lra. }
  assert (Hb : asin (1 * (1 / sqrt 3)) * (2 * M_1_PI) = theta)
    by (rewrite Rmult_1_l; done).
  unfold corners. change (of_size_t 0) with (IZR 0).
  rewrite !Hl by (left + right; lra).
  replace (2 * 0 - 1) with (-1) by lra.
  replace (2 * (0 + 1) - 1) with 1 by lra.
  replace (1 - 2 * 0) with 1 by lra.
  replace (1 - 2 * (0 + 1)) with (-1) by lra.
  rewrite !toRectilinear_corner, Hp, Hn, Ha, Hb.
  repeat f_equal; lra.
Qed.

Lemma PZ_extents :
  boundingBoxWidth (corners (Cubemap_getDirectionFor 1) 4 5 PZ 0 0) = 3 / 4 ∧
  boundingBoxHeight (corners (Cubemap_getDirectionFor 1) 4 5 PZ 0 0)
    = 4 * theta.
Proof.
  pose proof theta_bounds as Ht. rewrite PZ_corners.
  unfold boundingBoxWidth, boundingBoxHeight, extent. simpl.
  unfold Rmax, Rmin. split; case_Rle.
Qed.

Lemma ceil_spec (r : R) (z : Z) : IZR z - 1 < r <= IZR z → ceil r = z.
Proof.
  intros H. unfold ceil.
  replace (Int_part (- r)) with (- z)%Z; [lia|].
  apply Int_part_spec. rewrite opp_IZR. lra.
Qed.

(** C1, as the specification has it, fails: for the texel of the face PZ
    of a cubemap of dimension 1 and a source of 4 by 5 pixels the source
    takes 1 sample, the formula with ceilings gives 2. *)
Lemma numSamples_not_ceiling_product :
  numSamples (Cubemap_getDirectionFor 1) 4 5 PZ 0 0 = 1%N ∧
  specSampleCount (corners (Cubemap_getDirectionFor 1) 4 5 PZ 0 0) = 2%Z.
Proof.
  pose proof theta_bounds as Ht. destruct PZ_extents as [Hw Hh]. split.
  - apply N2Z.inj.
    rewrite numSamples_truncated.
    unfold truncatedSampleCount. rewrite Hw, Hh.
    rewrite (Rmax_left 1 (3 / 4)), (Rmax_right 1 (4 * theta)) by lra.
    symmetry. apply Int_part_spec. simpl. lra.
  - unfold specSampleCount. rewrite Hw, Hh.
    rewrite (ceil_spec (3 / 4) 1), (ceil_spec (4 * theta) 2); [done|lra..].
Qed.

(** ** The single-precision quotients [1.0f / n] *)


Lemma of_size_t_of_nat (i : nat) : of_size_t (N.of_nat i) = INR i.
Proof. unfold of_size_t. by rewrite nat_N_Z, <- INR_IZR_INZ. Qed.

Lemma decimal_half : 0.5 = 1 / 2.
Proof. lra. Qed.

Lemma sqrt_area_pos (x y : R) : 0 < sqrt (x * x + y * y + 1).
Proof. apply sqrt_lt_R0. nra. Qed.

Lemma powerRZ_IZR (e : Z) : (0 ≤ e)%Z → powerRZ 2 e = IZR (2 ^ e).
Proof.
  intros He. destruct e as [|p|p]; [done| |lia].
  by rewrite <- Zpower_pos_powerRZ.
Qed.

Lemma powerRZ_2_pos (e : Z) : 0 < powerRZ 2 e.
Proof. apply powerRZ_lt. lra. Qed.

Lemma powerRZ_2_add (a b : Z) : powerRZ 2 (a + b) = powerRZ 2 a * powerRZ 2 b.
Proof. apply powerRZ_add. lra. Qed.

Lemma powerRZ_2_cancel (a : Z) : powerRZ 2 a * powerRZ 2 (- a) = 1.
Proof. by rewrite <- powerRZ_2_add, Z.add_opp_diag_r. Qed.

Lemma Rabs_le_iff (x y : R) : - y <= x <= y → Rabs x <= y.
Proof. intros. apply Rabs_le. lra. Qed.

Lemma Rabs_le_bounds (x y : R) : Rabs x <= y → - y <= x <= y.
Proof. unfold Rabs. destruct (Rcase_abs x); lra. Qed.

(** The value of [binary_round_aux]: a multiple [k] of the new unit, with
    [k] at most one unit away from the value rounded. *)
Lemma binary_round_aux_value (p : positive) (e : Z) (l : location) :
  let n := (Zpos (digits2_pos p) - 24)%Z in
  (0 ≤ n)%Z → (-149 ≤ e + n)%Z → (e + n + 1 ≤ 104)%Z →
  ∃ m' e' k,
    binary_round_aux prec32 emax32 false (Zpos p) e l
    = S754_finite false m' e' ∧
    (2 ^ 23 ≤ Zpos m' < 2 ^ 24)%Z ∧ (e + n ≤ e' ≤ e + n + 1)%Z ∧
    IZR (Zpos m') * powerRZ 2 e' = IZR k * powerRZ 2 (e + n) ∧
    IZR k - 1 <= IZR (Zpos p) * powerRZ 2 (- n) <= IZR k + 1.
Proof.
  intros n Hn Hlo Hhi.
  destruct (binary_round_aux_32 p e l Hn Hlo Hhi)
    as (m' & e' & k & E & Hm' & Hk & He').
  fold n in Hk. exists m', e', k. split; [done|]. split; [done|].
  split; [lia|]. split.
  - destruct He' as [[-> ->]|[-> <-]]; [done|].
    rewrite powerRZ_2_add, mult_IZR. change (powerRZ 2 1) with (2 * 1).
    unfold n. ring.
  - assert (Hp : (0 < 2 ^ n)%Z) by (apply Z.pow_pos_nonneg; lia).
    pose proof (Z.mul_div_le (Zpos p) (2 ^ n) Hp) as H1.
    pose proof (Z.mul_succ_div_gt (Zpos p) (2 ^ n) Hp) as H2.
    set (m1 := (Zpos p / 2 ^ n)%Z) in *.
    apply IZR_le in H1. apply IZR_lt in H2.
    rewrite mult_IZR in H1, H2. rewrite succ_IZR in H2.
    rewrite <- powerRZ_IZR in H1, H2 by done.
    pose proof (powerRZ_2_pos n) as Hpn.
    pose proof (powerRZ_2_pos (- n)) as Hpm.
    pose proof (powerRZ_2_cancel n) as Hc.
    set (a := powerRZ 2 n) in *. set (b := powerRZ 2 (- n)) in *.
    set (P := IZR (Zpos p)) in *.
    assert (Ha : ∀ z, a * z * b = z)
      by (intros z; transitivity (z * (a * b)); [ring|rewrite Hc; ring]).
    assert (a * IZR m1 * b <= P * b) by (apply Rmult_le_compat_r; lra).
    assert (P * b < a * (IZR m1 + 1) * b) by (apply Rmult_lt_compat_r; lra).
    rewrite Ha in *.
    destruct Hk as [->| ->]; [|rewrite plus_IZR]; lra.
Qed.

(** [(float)n] for [0 < n < 2^64]: a normal number within a relative
    [2^-23] of [n]. *)
Lemma f32_of_Z_value (p : positive) :
  (Zpos p < 2 ^ 64)%Z →
  ∃ m e, f32_of_Z (Zpos p) = S754_finite false m e ∧
    (2 ^ 23 ≤ Zpos m < 2 ^ 24)%Z ∧ (-23 ≤ e ≤ 41)%Z ∧
    Rabs (IZR (Zpos m) * powerRZ 2 e - IZR (Zpos p))
    <= IZR (Zpos p) / 8388608.
Proof.
  intros Hp. pose proof (digits2_pos_bounds p) as [Hdl Hdh].
  unfold f32_of_Z, binary_normalize, binary_round.
  set (d := Zpos (digits2_pos p)) in *.
  assert (Hd : (1 ≤ d ≤ 64)%Z).
  { split; [unfold d; lia|].
    destruct (Z.le_gt_cases d 64) as [|Hgt]; [done|].
    assert (2 ^ 64 ≤ 2 ^ (d - 1))%Z by (apply Z.pow_le_mono_r; lia). lia. }
  replace (fexp prec32 emax32 (d + 0)) with (d - 24)%Z
    by (unfold fexp, emin, prec32, emax32; lia).
  unfold shl_align. destruct (d - 24 - 0)%Z as [|q|q] eqn:Hq.
  - (* 24 digits *)
    destruct (binary_round_aux_value p 0 loc_Exact)
      as (m & e & k & E & Hm & He & Hv & Hk); fold d; [lia..|].
    fold d in He, Hv, Hk. assert (Ed : d = 24%Z) by lia.
    rewrite Ed in He, Hv, Hk, Hdl. change (24 - 24)%Z with 0%Z in *.
    exists m, e. split; [done|]. split; [done|]. split; [lia|].
    rewrite Hv. change (powerRZ 2 (0 + 0)) with 1.
    change (powerRZ 2 (- 0)) with 1 in Hk.
    assert (8388608 <= IZR (Zpos p)) by (apply (IZR_le (2 ^ 23)); lia).
    apply Rabs_le_iff. lra.
  - (* more than 24 digits *)
    destruct (binary_round_aux_value p 0 loc_Exact)
      as (m & e & k & E & Hm & He & Hv & Hk); fold d; [lia..|].
    fold d in He, Hv, Hk. set (n := (d - 24)%Z) in *.
    exists m, e. split; [done|]. split; [done|]. split; [lia|].
    rewrite Hv, Z.add_0_l.
    pose proof (powerRZ_2_pos n) as Ha. pose proof (powerRZ_2_pos (- n)) as Hb.
    pose proof (powerRZ_2_cancel n) as Hc.
    assert (HP : 8388608 * powerRZ 2 n <= IZR (Zpos p)).
    { rewrite powerRZ_IZR by lia. rewrite <- (mult_IZR (2 ^ 23)).
      apply IZR_le. rewrite <- Z.pow_add_r by lia.
      by replace (23 + n)%Z with (d - 1)%Z by lia. }
    set (a := powerRZ 2 n) in *. set (b := powerRZ 2 (- n)) in *.
    set (P := IZR (Zpos p)) in *. set (K := IZR k) in *.
    assert (Hab : ∀ z, z * b * a = z)
      by (intros z; transitivity (z * (a * b)); [ring|rewrite Hc; ring]).
    assert ((K - 1) * a <= P * b * a) by (apply Rmult_le_compat_r; lra).
    assert (P * b * a <= (K + 1) * a) by (apply Rmult_le_compat_r; lra).
    rewrite Hab in *. apply Rabs_le_iff. lra.
  - (* fewer than 24 digits *)
    set (mz := Pos.iter xO p q).
    assert (Emz : Zpos mz = (Zpos p * 2 ^ Zpos q)%Z) by apply Pos_iter_xO.
    assert (Hpq : (0 < 2 ^ Zpos q)%Z) by (apply Z.pow_pos_nonneg; lia).
    assert (Hmz : (2 ^ 23 ≤ Zpos mz < 2 ^ 24)%Z).
    { rewrite Emz. replace 23%Z with (d - 1 + Zpos q)%Z by lia.
      replace 24%Z with (d + Zpos q)%Z by lia.
      rewrite !Z.pow_add_r by lia. nia. }
    assert (Edz : Zpos (digits2_pos mz) = 24%Z)
      by (apply digits2_pos_unique; lia).
    destruct (binary_round_aux_value mz (d - 24) loc_Exact)
      as (m & e & k & E & Hm & He & Hv & Hk); rewrite ?Edz; [lia..|].
    rewrite Edz in He, Hv, Hk. change (24 - 24)%Z with 0%Z in *.
    exists m, e. split; [done|]. split; [done|]. split; [lia|].
    rewrite Hv, Z.add_0_r. change (powerRZ 2 (- 0)) with 1 in Hk.
    replace (d - 24)%Z with (- Zpos q)%Z by lia.
    rewrite Emz, mult_IZR, <- powerRZ_IZR in Hk by lia.
    pose proof (powerRZ_2_pos (Zpos q)) as Ha.
    pose proof (powerRZ_2_pos (- Zpos q)) as Hb.
    pose proof (powerRZ_2_cancel (Zpos q)) as Hc.
    assert (HP : 8388608 <= IZR (Zpos p) * powerRZ 2 (Zpos q)).
    { rewrite powerRZ_IZR by lia. rewrite <- mult_IZR.
      apply (IZR_le (2 ^ 23)). lia. }
    set (a := powerRZ 2 (Zpos q)) in *. set (b := powerRZ 2 (- Zpos q)) in *.
    set (P := IZR (Zpos p)) in *. set (K := IZR k) in *.
    assert (Hab : ∀ z, z * a * b = z)
      by (intros z; transitivity (z * (a * b)); [ring|rewrite Hc; ring]).
    assert ((K - 1) * b <= P * a * 1 * b) by (apply Rmult_le_compat_r; lra).
    assert (P * a * 1 * b <= (K + 1) * b) by (apply Rmult_le_compat_r; lra).
    assert (8388608 * b <= P * a * b) by (apply Rmult_le_compat_r; lra).
    replace (P * a * 1 * b) with (P * a * b) in * by ring.
    rewrite Hab in *. apply Rabs_le_iff. lra.
Qed.

Lemma f32_1_value : f32_1 = S754_finite false 8388608 (-23).
Proof. done. Qed.

(** [1.0f / y] for a normal [y] between 1 and 2^64: a number within a
    relative [2^-22] of the quotient. *)
Lemma f32_div_1_value (my : positive) (ey : Z) :
  (2 ^ 23 ≤ Zpos my < 2 ^ 24)%Z → (-23 ≤ ey ≤ 41)%Z →
  ∃ m e, f32_div f32_1 (S754_finite false my ey) = S754_finite false m e ∧
    Rabs (IZR (Zpos m) * powerRZ 2 e * (IZR (Zpos my) * powerRZ 2 ey) - 1)
    <= / 4194304.
Proof.
  intros Hmy Hey. rewrite f32_1_value. unfold f32_div, SFdiv.
  cbn [xorb]. unfold SFdiv_core_binary.
  change (Zdigits2 (Zpos 8388608)) with 24%Z.
  change (Zdigits2 (Zpos my)) with (Zpos (digits2_pos my)).
  rewrite (digits2_pos_unique my 24) by done. cbv zeta.
  replace (Z.min (fexp prec32 emax32 (24 + -23 - (24 + ey))) (-23 - ey))
    with (-47 - ey)%Z by (unfold fexp, emin, prec32, emax32; lia).
  replace (-23 - ey - (-47 - ey))%Z with 24%Z by lia.
  change (Z.shiftl (Zpos 8388608) 24) with (2 ^ 47)%Z.
  pose proof (Z_div_mod (2 ^ 47) (Zpos my) ltac:(done)) as Hdiv.
  destruct (Z.div_eucl (2 ^ 47) (Zpos my)) as [q r].
  destruct Hdiv as [Hq Hr].
  assert (Hqb : (2 ^ 23 ≤ q ≤ 2 ^ 24)%Z) by nia.
  destruct q as [|qp|qp]; [lia| |lia].
  set (l := new_location (Zpos my) r).
  assert (HQ : IZR (Zpos my) * IZR (Zpos qp) <= 140737488355328
               < IZR (Zpos my) * (IZR (Zpos qp) + 1)).
  { rewrite <- (plus_IZR _ 1), <- !mult_IZR. split.
    - apply (IZR_le _ (2 ^ 47)). lia.
    - apply (IZR_lt (2 ^ 47)). lia. }
  assert (HM : 8388608 <= IZR (Zpos my) < 16777216).
  { split; [apply (IZR_le (2 ^ 23))|apply (IZR_lt _ (2 ^ 24))]; lia. }
  assert (E47 : ∀ a, powerRZ 2 (-47 - ey + a) * powerRZ 2 ey
                     = powerRZ 2 a / 140737488355328).
  { intros a. rewrite <- powerRZ_2_add.
    replace (-47 - ey + a + ey)%Z with (a + - (47))%Z by lia.
    rewrite powerRZ_2_add, powerRZ_neg', (powerRZ_IZR 47) by lia. done. }
  destruct (Z.lt_ge_cases (Zpos qp) (2 ^ 24)) as [Hlt|Hge].
  - assert (Ed : Zpos (digits2_pos qp) = 24%Z)
      by (apply digits2_pos_unique; lia).
    destruct (binary_round_aux_value qp (-47 - ey) l)
      as (m & e & k & E & Hm & He & Hv & Hk); rewrite ?Ed; [lia..|].
    rewrite Ed in Hv, Hk. change (24 - 24)%Z with 0%Z in *.
    exists m, e. split; [done|]. rewrite Hv.
    replace (IZR k * powerRZ 2 (-47 - ey + 0)
             * (IZR (Zpos my) * powerRZ 2 ey))
      with (IZR k * IZR (Zpos my)
            * (powerRZ 2 (-47 - ey + 0) * powerRZ 2 ey)) by ring.
    rewrite E47. change (powerRZ 2 (- 0)) with 1 in Hk.
    change (powerRZ 2 0) with 1.
    set (M := IZR (Zpos my)) in *. set (Q := IZR (Zpos qp)) in *.
    set (K := IZR k) in *.
    assert ((Q * 1 - 1) * M <= K * M) by (apply Rmult_le_compat_r; lra).
    assert (K * M <= (Q * 1 + 1) * M) by (apply Rmult_le_compat_r; lra).
    apply Rabs_le_iff. lra.
  - assert (Eq : Zpos qp = (2 ^ 24)%Z) by lia.
    assert (Emy : Zpos my = (2 ^ 23)%Z) by nia.
    assert (Ed : Zpos (digits2_pos qp) = 25%Z)
      by (apply digits2_pos_unique; lia).
    destruct (binary_round_aux_value qp (-47 - ey) l)
      as (m & e & k & E & Hm & He & Hv & Hk); rewrite ?Ed; [lia..|].
    rewrite Ed in Hv, Hk. change (25 - 24)%Z with 1%Z in *.
    exists m, e. split; [done|]. rewrite Hv.
    replace (IZR k * powerRZ 2 (-47 - ey + 1)
             * (IZR (Zpos my) * powerRZ 2 ey))
      with (IZR k * IZR (Zpos my)
            * (powerRZ 2 (-47 - ey + 1) * powerRZ 2 ey)) by ring.
    rewrite E47. rewrite Eq in Hk. rewrite Emy.
    change (powerRZ 2 (- (1))) with (/ (2 * 1)) in Hk.
    change (powerRZ 2 1) with (2 * 1).
    change (IZR (2 ^ 24)) with 16777216 in Hk.
    change (IZR (2 ^ 23)) with 8388608.
    apply Rabs_le_iff. lra.
Qed.

(** [1.0f / n] for [1 <= n < 2^64] is positive and within a relative
    [2^-21] of [1 / n]. *)
Lemma float_reciprocal_bounds (n : N) :
  (1 ≤ n < 2 ^ 64)%N →
  0 < float_reciprocal n ∧
  Rabs (of_size_t n * float_reciprocal n - 1) <= / 2097152.
Proof.
  intros Hn. destruct n as [|p]; [lia|].
  destruct (f32_of_Z_value p) as (my & ey & E1 & Hmy & Hey & HY); [lia|].
  destruct (f32_div_1_value my ey Hmy Hey) as (m & e & E2 & Hv).
  unfold float_reciprocal, f32_of_size_t, of_size_t.
  change (Z.of_N (Npos p)) with (Zpos p). rewrite E1, E2. cbn [of_float].
  assert (HD : 1 <= IZR (Zpos p)) by (apply (IZR_le 1); lia).
  assert (HV : 0 < IZR (Zpos m) * powerRZ 2 e).
  { apply Rmult_lt_0_compat; [apply (IZR_lt 0); lia|apply powerRZ_2_pos]. }
  set (D := IZR (Zpos p)) in *. set (Y := IZR (Zpos my) * powerRZ 2 ey) in *.
  set (V := IZR (Zpos m) * powerRZ 2 e) in *.
  apply Rabs_le_bounds in HY, Hv.
  assert (V * ((1 - / 8388608) * D) <= V * Y)
    by (apply Rmult_le_compat_l; lra).
  assert (V * Y <= V * ((1 + / 8388608) * D))
    by (apply Rmult_le_compat_l; lra).
  split; [done|]. apply Rabs_le_iff. lra.
Qed.

(** [iNumSamples] is positive and within a relative [2^-21] of the inverse
    of the sample count. *)
Lemma iNumSamples_inverse
    (getDirectionFor : Face → double → double → double3)
    (width height : N) (f : Face) (x y : N) :
  (numSamples getDirectionFor width height f x y < 2 ^ 64)%N →
  0 < iNumSamples getDirectionFor width height f x y ∧
  Rabs (of_size_t (numSamples getDirectionFor width height f x y)
        * iNumSamples getDirectionFor width height f x y - 1) <= / 2097152.
Proof.
  intros H. apply float_reciprocal_bounds. split; [|done].
  apply samplesOfBox_ge_1.
Qed.



(** *** Where equirectangularToCubemap samples the source *)

Lemma atan2_bounds (y x : R) : - PI <= atan2 y x <= PI.
Proof.
  pose proof PI_RGT_0 as Hpi. unfold atan2.
  destruct (Rlt_dec 0 x) as [Hx|Hx].
  { pose proof (atan_bound (y / x)). lra. }
  destruct (Rlt_dec x 0) as [Hx'|Hx'].
  - pose proof (atan_bound (y / x)) as Hb.
    assert (Hi : / x < 0) by (apply Rinv_lt_0_compat; lra).
    destruct (Rle_dec 0 y) as [Hy|Hy].
    + assert (atan (y / x) <= 0); [|lra].
      destruct Hy as [Hy| <-].
      * rewrite <- atan_0. left. apply atan_increasing. unfold Rdiv. nra.
      * unfold Rdiv. rewrite Rmult_0_l, atan_0. lra.
    + assert (0 < atan (y / x)); [|lra].
      rewrite <- atan_0. apply atan_increasing. unfold Rdiv. nra.
  - destruct (Rlt_dec 0 y); [lra|]. destruct (Rlt_dec y 0); lra.
Qed.

Lemma of_size_t_pred (n : N) :
  (1 ≤ n < 2 ^ 64)%N → of_size_t (wrap (n + (2 ^ 64 - 1))) = of_size_t n - 1.
Proof.
  intros Hn. unfold wrap, size_t_bits.
  replace (n + (2 ^ 64 - 1))%N with (n - 1 + 1 * 2 ^ 64)%N by lia.
  rewrite N.Div0.mod_add, N.mod_small by lia.
  unfold of_size_t. rewrite N2Z.inj_sub by lia. by rewrite minus_IZR.
Qed.

(** The projection of a direction lies between the first and the last
    column, and between the first and the last row, of the source. *)
Lemma toRectilinear_range (width height : N) (s : double3) :
  (1 ≤ width < 2 ^ 64)%N → (1 ≤ height < 2 ^ 64)%N →
  0 <= (toRectilinear width height s).1 <= of_size_t width - 1 ∧
  0 <= (toRectilinear width height s).2 <= of_size_t height - 1.
Proof.
  intros Hw Hh. destruct s as [[sx sy] sz]. unfold toRectilinear.
  cbn [fst snd]. rewrite !of_size_t_pred by done.
  pose proof PI_RGT_0 as Hpi.
  assert (HP : PI * / PI = 1) by (field; lra).
  assert (Hi : 0 < / PI) by (apply Rinv_0_lt_compat; lra).
  assert (HW : 0 <= of_size_t width - 1).
  { pose proof (IZR_le 1 (Z.of_N width) ltac:(lia)). unfold of_size_t. lra. }
  assert (HH : 0 <= of_size_t height - 1).
  { pose proof (IZR_le 1 (Z.of_N height) ltac:(lia)). unfold of_size_t. lra. }
  pose proof (atan2_bounds sx sz) as Ha. pose proof (asin_bound sy) as Hs.
  unfold M_1_PI. rewrite decimal_half.
  set (a := atan2 sx sz) in *. set (b := asin sy) in *.
  assert (-1 <= a * / PI <= 1) by nra.
  assert (-1 <= b * (2 * / PI) <= 1) by nra.
  set (W := of_size_t width - 1) in *. set (H' := of_size_t height - 1) in *.
  split; nra.
Qed.

Lemma to_size_t_le (r : R) (n : N) : r <= of_size_t n → (to_size_t r ≤ n)%N.
Proof.
  intros Hr. unfold to_size_t, of_size_t in *.
  destruct (base_Int_part r) as [H1 _].
  assert (H : IZR (Int_part r) <= IZR (Z.of_N n)) by lra.
  apply le_IZR in H. lia.
Qed.




Lemma std_max_lub (a b c : R) : a <= c → b <= c → std_max a b <= c.
Proof. intros. unfold std_max. by destruct (Rlt_dec a b). Qed.

Lemma std_min_glb (a b c : R) : c <= a → c <= b → c <= std_min a b.
Proof. intros. unfold std_min. by destruct (Rlt_dec b a). Qed.

Lemma samplesOfBox_le (pos0 pos1 pos2 pos3 : double2) (w h : N) :
  (∀ p, p ∈ [pos0; pos1; pos2; pos3] →
        0 <= p.1 <= of_size_t w ∧ 0 <= p.2 <= of_size_t h) →
  (samplesOfBox pos0 pos1 pos2 pos3 ≤ N.max 1 w * N.max 1 h)%N.
Proof.
  intros Hp.
  destruct (Hp pos0) as [H0x H0y]; [repeat constructor|].
  destruct (Hp pos1) as [H1x H1y]; [repeat constructor|].
  destruct (Hp pos2) as [H2x H2y]; [repeat constructor|].
  destruct (Hp pos3) as [H3x H3y]; [repeat constructor|].
  unfold samplesOfBox. cbv zeta.
  set (minx := std_min pos0.1 _). set (maxx := std_max pos0.1 _).
  set (miny := std_min pos0.2 _). set (maxy := std_max pos0.2 _).
  assert (0 <= minx) by (repeat apply std_min_glb; lra).
  assert (0 <= miny) by (repeat apply std_min_glb; lra).
  assert (maxx <= of_size_t w) by (repeat apply std_max_lub; lra).
  assert (maxy <= of_size_t h) by (repeat apply std_max_lub; lra).
  assert (Hw1 : 1 <= of_size_t (N.max 1 w)) by (apply IZR_le; lia).
  assert (Hww : of_size_t w <= of_size_t (N.max 1 w)) by (apply IZR_le; lia).
  assert (Hh1 : 1 <= of_size_t (N.max 1 h)) by (apply IZR_le; lia).
  assert (Hhh : of_size_t h <= of_size_t (N.max 1 h)) by (apply IZR_le; lia).
  pose proof (std_max_ge_l 1 (maxx - minx)).
  pose proof (std_max_ge_l 1 (maxy - miny)).
  assert (std_max 1 (maxx - minx) <= of_size_t (N.max 1 w))
    by (apply std_max_lub; lra).
  assert (std_max 1 (maxy - miny) <= of_size_t (N.max 1 h))
    by (apply std_max_lub; lra).
  apply to_size_t_le. unfold of_size_t. rewrite N2Z.inj_mul, mult_IZR.
  fold (of_size_t (N.max 1 w)) (of_size_t (N.max 1 h)).
  apply Rmult_le_compat; lra.
Qed.

Lemma Cubemap_getDirectionFor_range (dim : N) (f : Face) (x y : R) :
  -1 <= (Cubemap_getDirectionFor dim f x y).1.2 <= 1.
Proof.
  unfold Cubemap_getDirectionFor. cbv zeta.
  set (cx := x * (2 / of_size_t dim) - 1).
  set (cy := 1 - y * (2 / of_size_t dim)).
  pose proof (sqrt_area_pos cx cy) as Hl.
  pose proof (sqrt_sqrt (cx * cx + cy * cy + 1) ltac:(nra)) as Hsq.
  set (l := sqrt (cx * cx + cy * cy + 1)) in *.
  assert (Hi : l * (1 / l) = 1) by (field; lra).
  assert (Hp : 0 < 1 / l) by (apply Rdiv_lt_0_compat; lra).
  assert (Hcy : - l <= cy <= l) by nra.
  assert (H1 : 1 <= l) by nra.
  destruct f; cbn [fst snd]; nra.
Qed.

(** X14: the number of samples taken for a texel is at most the area of
    the source between its first and last columns and rows (and at least
    one): the sampling loop of a texel runs at most
    [max 1 (width - 1) * max 1 (height - 1)] times. *)
Theorem numSamples_at_most_source_area
    (getDirectionFor : Face → double → double → double3)
    (width height : N) (f : Face) (x y : N) :
  (1 ≤ width < 2 ^ 64)%N → (1 ≤ height < 2 ^ 64)%N →
  (∀ a b, -1 <= (getDirectionFor f a b).1.2 <= 1) →
  (1 ≤ numSamples getDirectionFor width height f x y
   ≤ N.max 1 (width - 1) * N.max 1 (height - 1))%N.
Proof.
  intros Hw Hh _. split; [apply samplesOfBox_ge_1|].
  apply samplesOfBox_le. intros p Hp.
  assert (Hr : ∀ s, 0 <= (toRectilinear width height s).1
                         <= of_size_t (width - 1) ∧
                    0 <= (toRectilinear width height s).2
                         <= of_size_t (height - 1)).
  { intros s. pose proof (toRectilinear_range width height s Hw Hh) as Hs.
    unfold of_size_t in *. rewrite !N2Z.inj_sub, !minus_IZR by lia. exact Hs. }
  repeat (apply elem_of_cons in Hp as [->|Hp]; [apply Hr|]).
  by apply elem_of_nil in Hp.
Qed.

Lemma numSamples_at_most_source_area_witness :
  (1 ≤ 4 < 2 ^ 64)%N ∧ (1 ≤ 5 < 2 ^ 64)%N ∧
  (∀ a b, -1 <= (Cubemap_getDirectionFor 1 PZ a b).1.2 <= 1) ∧
  (1 ≤ numSamples (Cubemap_getDirectionFor 1) 4 5 PZ 0 0
   ≤ N.max 1 (4 - 1) * N.max 1 (5 - 1))%N.
Proof.
  split; [lia|]. split; [lia|].
  split; [intros a b; apply Cubemap_getDirectionFor_range|].
  apply numSamples_at_most_source_area;
    [lia|lia|intros a b; apply Cubemap_getDirectionFor_range].
Defined.


(** *** Where downsampleCubemapLevelBoxFilter filters the source *)

Lemma downsample_block (srcDim dstDim x : N) :
  (1 ≤ dstDim)%N → (x < dstDim)%N →
  (x * (srcDim / dstDim) + srcDim / dstDim ≤ srcDim)%N.
Proof.
  intros Hd Hx. pose proof (N.Div0.mul_div_le srcDim dstDim) as Hm.
  assert (N.succ x * (srcDim / dstDim) ≤ dstDim * (srcDim / dstDim))%N
    by (apply N.mul_le_mono_r; lia).
  lia.
Qed.

Lemma downsample_coordinate (srcDim dstDim x : N) :
  (1 ≤ dstDim)%N → (srcDim < 2 ^ 64)%N → (x < dstDim)%N →
  of_size_t (wrap (x * (srcDim / dstDim))) + 0.5
  = of_size_t (x * (srcDim / dstDim)) + 1 / 2.
Proof.
  intros Hd Hs Hx. pose proof (downsample_block srcDim dstDim x Hd Hx) as Hb.
  pose proof (N.le_0_l (srcDim / dstDim)).
  unfold wrap, size_t_bits. set (p := (x * (srcDim / dstDim))%N) in *.
  rewrite N.mod_small by (clearbody p; lia). lra.
Qed.

(** X17: for a destination of at least one texel, the scale is the
    truncated quotient of the dimensions; the block of [scale] by [scale]
    source texels that starts at the position filtered for a destination
    texel lies inside the source face, and the products do not wrap.  When
    the destination is larger than the source the scale is 0, and every
    destination texel is filtered at the same position [(0.5, 0.5)]. *)
Theorem downsample_positions (srcDim dstDim x y : N) :
  (1 ≤ dstDim)%N → (srcDim < 2 ^ 64)%N → (x < dstDim)%N → (y < dstDim)%N →
  ∃ scale,
    downsampleScale srcDim dstDim = Some scale ∧
    scale = (srcDim / dstDim)%N ∧
    downsamplePosition scale x y
    = (of_size_t (x * scale) + 1 / 2, of_size_t (y * scale) + 1 / 2) ∧
    (x * scale + scale ≤ srcDim)%N ∧ (y * scale + scale ≤ srcDim)%N ∧
    ((srcDim < dstDim)%N → downsamplePosition scale x y = (1 / 2, 1 / 2)).
Proof.
  intros Hd Hs Hx Hy. exists (srcDim / dstDim)%N.
  assert (Hp : downsamplePosition (srcDim / dstDim) x y
               = (of_size_t (x * (srcDim / dstDim)) + 1 / 2,
                  of_size_t (y * (srcDim / dstDim)) + 1 / 2)).
  { unfold downsamplePosition. by rewrite !downsample_coordinate. }
  split.
  { unfold downsampleScale. by destruct (N.eqb_spec dstDim 0); [lia|]. }
  split; [done|]. split; [done|].
  split; [by apply downsample_block|]. split; [by apply downsample_block|].
  intros Hlt. rewrite Hp, N.div_small, !N.mul_0_r by done.
  unfold of_size_t. simpl. f_equal; lra.
Qed.

Lemma downsample_positions_witness :
  (1 ≤ 4)%N ∧ (8 < 2 ^ 64)%N ∧ (3 < 4)%N ∧ (1 < 4)%N ∧
  ∃ scale, downsampleScale 8 4 = Some scale ∧ scale = 2%N.
Proof.
  split; [done|]. split; [done|]. split; [done|]. split; [done|].
  destruct (downsample_positions 8 4 3 1) as (scale & H1 & H2 & _);
    [done..|].
  exists scale. split; [exact H1|exact H2].
Defined.

(** ** solidAngle *)

Lemma sphereQuadrantArea_atan (x y : R) :
  sphereQuadrantArea x y = atan (x * y / sqrt (x * x + y * y + 1)).
Proof.
  unfold sphereQuadrantArea, atan2.
  by destruct (Rlt_dec 0 _) as [_|H]; [|destruct (H (sqrt_area_pos x y))].
Qed.



Lemma area_pos_corner (x y : R) :
  x * y = 1 → x * x + y * y + 1 = 3 → sphereQuadrantArea x y = PI / 6.
Proof.
  intros Hxy Hsq. unfold sphereQuadrantArea, atan2. rewrite Hxy, Hsq.
  destruct (Rlt_dec 0 (sqrt 3)) as [_|H]; [|destruct (H sqrt_3_pos)].
  apply atan_inv_sqrt_3.
Qed.

Lemma area_neg_corner (x y : R) :
  x * y = -1 → x * x + y * y + 1 = 3 → sphereQuadrantArea x y = - (PI / 6).
Proof.
  intros Hxy Hsq. unfold sphereQuadrantArea, atan2. rewrite Hxy, Hsq.
  destruct (Rlt_dec 0 (sqrt 3)) as [_|H]; [|destruct (H sqrt_3_pos)].
  replace (-1 / sqrt 3) with (- (1 / sqrt 3))
    by (field; pose proof sqrt_3_pos; lra).
  by rewrite atan_opp, atan_inv_sqrt_3.
Qed.

(** *** The area of a quadrant

    [sphereQuadrantArea x y] has the derivative
    [x / ((y * y + 1) * sqrt (x * x + y * y + 1))] in [y], which grows with
    [x], by at most 1 per unit: the mixed difference of the area over a
    rectangle is positive and at most the area of the rectangle. *)

Lemma atan_area_derivative (x c : R) :
  derivable_pt_lim (λ y, atan (x * y / sqrt (x * x + y * y + 1))) c
    (x / ((c * c + 1) * sqrt (x * x + c * c + 1))).
Proof.
  pose proof (sqrt_area_pos x c) as Hs.
  pose proof (sqrt_sqrt (x * x + c * c + 1) ltac:(nra)) as Hsq.
  assert (Hg : derivable_pt_lim (λ y, x * x + y * y + 1) c
                 (0 + (1 * c + c * 1) + 0)).
  { apply (derivable_pt_lim_plus (λ y, x * x + y * y) (λ _, 1)).
    - apply (derivable_pt_lim_plus (λ _, x * x) (λ y, y * y)).
      + apply (derivable_pt_lim_const (x * x)).
      + apply (derivable_pt_lim_mult Ranalysis1.id Ranalysis1.id);
          apply derivable_pt_lim_id.
    - apply (derivable_pt_lim_const 1). }
  assert (Hr : derivable_pt_lim (λ y, sqrt (x * x + y * y + 1)) c
                 (/ (2 * sqrt (x * x + c * c + 1))
                  * (0 + (1 * c + c * 1) + 0))).
  { apply (derivable_pt_lim_comp (λ y, x * x + y * y + 1) sqrt); [done|].
    apply derivable_pt_lim_sqrt. nra. }
  assert (Hn : derivable_pt_lim (λ y, x * y) c (0 * c + x * 1)).
  { apply (derivable_pt_lim_mult (λ _, x) Ranalysis1.id).
    - apply (derivable_pt_lim_const x).
    - apply derivable_pt_lim_id. }
  pose proof (derivable_pt_lim_div _ _ _ _ _ Hn Hr ltac:(lra)) as Hu.
  pose proof (derivable_pt_lim_comp _ atan _ _ _ Hu (derivable_pt_lim_atan _))
    as Ha.
  cbv beta in Ha.
  replace (x / ((c * c + 1) * sqrt (x * x + c * c + 1))) with
    (/ (1 + (x * c / sqrt (x * x + c * c + 1)) ^ 2) *
       (((0 * c + x * 1) * sqrt (x * x + c * c + 1)
         - / (2 * sqrt (x * x + c * c + 1)) * (0 + (1 * c + c * 1) + 0)
           * (x * c))
        / (sqrt (x * x + c * c + 1))²)).
  { exact Ha. }
  unfold Rsqr. set (s := sqrt (x * x + c * c + 1)) in *.
  field_simplify_eq; [|nra..].
  replace (s ^ 2) with (x * x + c * c + 1) by lra. ring.
Qed.

Lemma sphereQuadrantArea_derivative (x c : R) :
  derivable_pt_lim (sphereQuadrantArea x) c
    (x / ((c * c + 1) * sqrt (x * x + c * c + 1))).
Proof.
  apply (derivable_pt_lim_ext
           (λ y, atan (x * y / sqrt (x * x + y * y + 1)))).
  - intros y. by rewrite sphereQuadrantArea_atan.
  - apply atan_area_derivative.
Qed.

Lemma slope_derivative (k c : R) :
  0 < k →
  derivable_pt_lim (λ x, x / sqrt (x * x + k)) c
    (k / (sqrt (c * c + k) * sqrt (c * c + k) * sqrt (c * c + k))).
Proof.
  intros Hk.
  assert (Hs : 0 < sqrt (c * c + k)) by (apply sqrt_lt_R0; nra).
  pose proof (sqrt_sqrt (c * c + k) ltac:(nra)) as Hsq.
  assert (Hg : derivable_pt_lim (λ x, x * x + k) c (1 * c + c * 1 + 0)).
  { apply (derivable_pt_lim_plus (λ x, x * x) (λ _, k)).
    - apply (derivable_pt_lim_mult Ranalysis1.id Ranalysis1.id);
        apply derivable_pt_lim_id.
    - apply (derivable_pt_lim_const k). }
  assert (Hr : derivable_pt_lim (λ x, sqrt (x * x + k)) c
                 (/ (2 * sqrt (c * c + k)) * (1 * c + c * 1 + 0))).
  { apply (derivable_pt_lim_comp (λ x, x * x + k) sqrt); [done|].
    apply derivable_pt_lim_sqrt. nra. }
  pose proof (derivable_pt_lim_div _ _ _ _ _ (derivable_pt_lim_id c) Hr
                ltac:(lra)) as Hq.
  replace (k / (sqrt (c * c + k) * sqrt (c * c + k) * sqrt (c * c + k)))
    with ((1 * sqrt (c * c + k)
           - / (2 * sqrt (c * c + k)) * (1 * c + c * 1 + 0) * Ranalysis1.id c)
          / (sqrt (c * c + k))²).
  { exact Hq. }
  unfold Rsqr, Ranalysis1.id. set (s := sqrt (c * c + k)) in *.
  field_simplify_eq; [|nra..].
  replace k with (s * s - c * c) by lra. ring.
Qed.

Lemma slope_difference (k x0 x1 : R) :
  1 <= k → x0 < x1 →
  0 < x1 / sqrt (x1 * x1 + k) - x0 / sqrt (x0 * x0 + k) <= x1 - x0.
Proof.
  intros Hk Hx.
  destruct (MVT_cor2 (λ x, x / sqrt (x * x + k))
              (λ c, k / (sqrt (c * c + k) * sqrt (c * c + k)
                         * sqrt (c * c + k))) x0 x1 Hx) as (c & Hc & _).
  { intros c _. apply slope_derivative. lra. }
  cbv beta in Hc. rewrite Hc.
  assert (Hs : 0 < sqrt (c * c + k)) by (apply sqrt_lt_R0; nra).
  pose proof (sqrt_sqrt (c * c + k) ltac:(nra)) as Hsq.
  set (s := sqrt (c * c + k)) in *.
  assert (H1 : 1 <= s) by nra.
  assert (Hk3 : k <= s * s * s) by nra.
  assert (H3 : 0 < s * s * s) by nra.
  assert (Hq : 0 < k / (s * s * s) <= 1).
  { split.
    - apply Rdiv_lt_0_compat; lra.
    - apply (Rmult_le_reg_r (s * s * s)); [done|].
      replace (k / (s * s * s) * (s * s * s)) with k by (field; lra). lra. }
  split; [apply Rmult_lt_0_compat; lra|nra].
Qed.

Lemma sphereQuadrantArea_mixed_difference (x0 x1 y0 y1 : R) :
  x0 < x1 → y0 < y1 →
  0 < sphereQuadrantArea x0 y0 - sphereQuadrantArea x0 y1
      - sphereQuadrantArea x1 y0 + sphereQuadrantArea x1 y1
    <= (x1 - x0) * (y1 - y0).
Proof.
  intros Hx Hy.
  destruct (MVT_cor2
              (λ y, sphereQuadrantArea x1 y - sphereQuadrantArea x0 y)
              (λ c, x1 / ((c * c + 1) * sqrt (x1 * x1 + c * c + 1))
                    - x0 / ((c * c + 1) * sqrt (x0 * x0 + c * c + 1)))
              y0 y1 Hy) as (c & Hc & _).
  { intros c _.
    apply (derivable_pt_lim_minus (sphereQuadrantArea x1)
             (sphereQuadrantArea x0)); apply sphereQuadrantArea_derivative. }
  cbv beta in Hc.
  pose proof (slope_difference (c * c + 1) x0 x1 ltac:(nra) Hx) as Hq.
  replace (x0 * x0 + (c * c + 1)) with (x0 * x0 + c * c + 1) in Hq by ring.
  replace (x1 * x1 + (c * c + 1)) with (x1 * x1 + c * c + 1) in Hq by ring.
  pose proof (sqrt_area_pos x0 c) as H0. pose proof (sqrt_area_pos x1 c) as H1.
  set (s0 := sqrt (x0 * x0 + c * c + 1)) in *.
  set (s1 := sqrt (x1 * x1 + c * c + 1)) in *.
  assert (Hk : 0 < / (c * c + 1) <= 1).
  { split; [apply Rinv_0_lt_compat; nra|].
    rewrite <- Rinv_1. apply Rinv_le_contravar; nra. }
  assert (Hd : 0 < x1 / ((c * c + 1) * s1) - x0 / ((c * c + 1) * s0)
               <= x1 - x0).
  { replace (x1 / ((c * c + 1) * s1) - x0 / ((c * c + 1) * s0))
      with (/ (c * c + 1) * (x1 / s1 - x0 / s0)) by (field; nra).
    split; [apply Rmult_lt_0_compat; lra|nra]. }
  replace (sphereQuadrantArea x0 y0 - sphereQuadrantArea x0 y1
           - sphereQuadrantArea x1 y0 + sphereQuadrantArea x1 y1)
    with (sphereQuadrantArea x1 y1 - sphereQuadrantArea x0 y1
          - (sphereQuadrantArea x1 y0 - sphereQuadrantArea x0 y0)) by ring.
  rewrite Hc. split; [apply Rmult_lt_0_compat; lra|].
  apply Rmult_le_compat_r; lra.
Qed.

Lemma patch_bounds (x0 x1 y0 y1 : R) :
  x0 < x1 → y0 < y1 → 0 < patch x0 x1 y0 y1 <= (x1 - x0) * (y1 - y0).
Proof. apply sphereQuadrantArea_mixed_difference. Qed.

Lemma patch_split_x (x0 x1 x2 y0 y1 : R) :
  patch x0 x2 y0 y1 = patch x0 x1 y0 y1 + patch x1 x2 y0 y1.
Proof. unfold patch. lra. Qed.

Lemma patch_split_y (x0 x1 y0 y1 y2 : R) :
  patch x0 x1 y0 y2 = patch x0 x1 y0 y1 + patch x0 x1 y1 y2.
Proof. unfold patch. lra. Qed.



(** The whole face. *)
Lemma patch_face : patch (-1) 1 (-1) 1 = 2 * PI / 3.
Proof.
  unfold patch.
  rewrite (area_pos_corner (-1) (-1)), (area_neg_corner (-1) 1),
    (area_neg_corner 1 (-1)), (area_pos_corner 1 1) by lra.
  lra.
Qed.

(** A square that misses or exceeds the face by a margin. *)
Lemma patch_square_error (b : R) :
  Rabs (b - 1) <= / 1048576 →
  Rabs (patch (-1) b (-1) b - 2 * PI / 3) <= / 131072.
Proof.
  intros Hb. apply Rabs_le_bounds in Hb. rewrite <- patch_face.
  destruct (Rtotal_order b 1) as [Hlt|[->|Hgt]].
  - rewrite (patch_split_x (-1) b 1 (-1) 1), (patch_split_y (-1) b (-1) b 1).
    pose proof (patch_bounds (-1) b b 1 ltac:(lra) ltac:(lra)) as H1.
    pose proof (patch_bounds b 1 (-1) 1 ltac:(lra) ltac:(lra)) as H2.
    assert ((b - -1) * (1 - b) <= 2 * (1 - b))
      by (apply Rmult_le_compat_r; lra).
    apply Rabs_le_iff. lra.
  - rewrite Rminus_diag, Rabs_R0. lra.
  - rewrite (patch_split_x (-1) 1 b (-1) b), (patch_split_y (-1) 1 (-1) 1 b).
    pose proof (patch_bounds (-1) 1 1 b ltac:(lra) ltac:(lra)) as H1.
    pose proof (patch_bounds 1 b (-1) b ltac:(lra) ltac:(lra)) as H2.
    assert ((b - 1) * (b - -1) <= (b - 1) * 3)
      by (apply Rmult_le_compat_l; lra).
    apply Rabs_le_iff. lra.
Qed.

(** *** The texels of a face

    The corners of the texel [(u, v)] are the grid lines [u], [u + 1] and
    [v], [v + 1]. *)

Lemma solidAngle_patch (dim : N) (u v : nat) :
  solidAngle dim (N.of_nat u) (N.of_nat v)
  = patch (gridLine dim u) (gridLine dim (S u))
          (gridLine dim v) (gridLine dim (S v)).
Proof.
  unfold solidAngle, patch, gridLine. cbv zeta.
  rewrite !of_size_t_of_nat, !S_INR. set (i := float_reciprocal dim).
  assert (H0 : ∀ a, (a + 0.5) * 2 * i - 1 - i = 2 * a * i - 1)
    by (intros a; rewrite decimal_half; field).
  assert (H1 : ∀ a, (a + 0.5) * 2 * i - 1 + i = 2 * (a + 1) * i - 1)
    by (intros a; rewrite decimal_half; field).
  by rewrite !H0, !H1.
Qed.



Lemma gridLine_0 (dim : N) : gridLine dim 0 = -1.
Proof. unfold gridLine. simpl. ring. Qed.

Lemma gridLine_last (dim : N) :
  gridLine dim (N.to_nat dim) = 2 * (of_size_t dim * float_reciprocal dim) - 1.
Proof.
  unfold gridLine. rewrite <- (of_size_t_of_nat (N.to_nat dim)), N2Nat.id.
  ring.
Qed.










(** *** The sum over a face telescopes *)

Lemma Rsum_ext {A : Type} (f g : A → R) (l : list A) :
  (∀ a, a ∈ l → f a = g a) → Rsum (f <$> l) = Rsum (g <$> l).
Proof.
  induction l as [|a l IH]; intros H; [done|].
  change (f a + Rsum (f <$> l) = g a + Rsum (g <$> l)).
  rewrite (H a) by apply list_elem_of_here.
  rewrite IH; [done|]. intros b Hb. apply H. by apply list_elem_of_further.
Qed.

Lemma Rsum_telescope (h : nat → R) (n : nat) :
  Rsum ((λ i, h i - h (S i)) <$> seq 0 n) = h 0%nat - h n.
Proof.
  assert (Happ : ∀ l1 l2, Rsum (l1 ++ l2) = Rsum l1 + Rsum l2).
  { induction l1 as [|a l1 IHl]; intros l2; [unfold Rsum; simpl; lra|].
    change (a + Rsum (l1 ++ l2) = a + Rsum l1 + Rsum l2). rewrite IHl. lra. }
  induction n as [|n IH]; [unfold Rsum; simpl; lra|].
  rewrite seq_S, fmap_app, Happ, IH. unfold Rsum. simpl. lra.
Qed.

Lemma Rsum_indices (f : N → R) (n : N) :
  Rsum (f <$> indices n) = Rsum ((λ i, f (N.of_nat i)) <$> seq 0 (N.to_nat n)).
Proof. unfold indices. by rewrite <- list_fmap_compose. Qed.

(** The solid angles of the texels of a face add up to the solid angle of
    the square between the first and the last grid line. *)
Lemma faceSolidAngle_patch (dim : N) :
  faceSolidAngle dim
  = patch (-1) (gridLine dim (N.to_nat dim)) (-1) (gridLine dim (N.to_nat dim)).
Proof.
  set (n := N.to_nat dim). set (A := sphereQuadrantArea).
  set (g := gridLine dim).
  unfold faceSolidAngle. rewrite Rsum_indices.
  rewrite (Rsum_ext _ (λ u, (A (g u) (g 0%nat) - A (g u) (g n))
                            - (A (g (S u)) (g 0%nat) - A (g (S u)) (g n)))).
  - rewrite (Rsum_telescope (λ u, A (g u) (g 0%nat) - A (g u) (g n))).
    assert (Hg0 : g 0%nat = -1) by apply gridLine_0.
    rewrite Hg0. unfold patch, A, n. lra.
  - intros u _. rewrite Rsum_indices.
    rewrite (Rsum_ext _ (λ v, (A (g u) (g v) - A (g (S u)) (g v))
                              - (A (g u) (g (S v)) - A (g (S u)) (g (S v))))).
    + rewrite (Rsum_telescope (λ v, A (g u) (g v) - A (g (S u)) (g v))).
      fold n. lra.
    + intros v _. rewrite solidAngle_patch. unfold patch, A, g. lra.
Qed.

Lemma totalSolidAngle_faces (dim : N) :
  totalSolidAngle dim = 6 * faceSolidAngle dim.
Proof. unfold totalSolidAngle. simpl. lra. Qed.


(** For every dimension it is a sixth of the sphere within [2^-17]. *)
Lemma faceSolidAngle_error (dim : N) :
  (1 ≤ dim < 2 ^ 64)%N →
  Rabs (faceSolidAngle dim - 2 * PI / 3) <= / 131072.
Proof.
  intros Hdim. destruct (float_reciprocal_bounds dim Hdim) as [_ Hi].
  rewrite faceSolidAngle_patch, gridLine_last.
  apply patch_square_error. apply Rabs_le_bounds in Hi.
  apply Rabs_le_iff. lra.
Qed.

Lemma totalSolidAngle_error (dim : N) :
  (1 ≤ dim < 2 ^ 64)%N →
  Rabs (totalSolidAngle dim - 4 * PI) <= 6 / 131072.
Proof.
  intros Hdim. pose proof (faceSolidAngle_error dim Hdim) as H.
  apply Rabs_le_bounds in H. rewrite totalSolidAngle_faces.
  apply Rabs_le_iff. lra.
Qed.

(** C5: for [dim >= 8] the solid angles of all the texels of the six
    faces add up to 4 pi within a relative tolerance of 1e-3. *)
Theorem totalSolidAngle_tolerance (dim : N) :
  (8 ≤ dim)%N → (dim < 2 ^ 64)%N →
  Rabs (totalSolidAngle dim - 4 * PI) <= 1 / 1000 * (4 * PI) ∧
  totalSolidAngle dim = 6 * faceSolidAngle dim.
Proof.
  intros Hdim Hmax. split; [|apply totalSolidAngle_faces].
  pose proof (totalSolidAngle_error dim ltac:(lia)) as H.
  pose proof PI2_3_2. lra.
Qed.

Lemma totalSolidAngle_tolerance_witness :
  (8 ≤ 12)%N ∧ (12 < 2 ^ 64)%N ∧
  Rabs (totalSolidAngle 12 - 4 * PI) <= 1 / 1000 * (4 * PI).
Proof.
  split; [done|]. split; [done|]. by apply totalSolidAngle_tolerance.
Defined.



End IdealProps.
